(** * The post-response task coordinator of [server/after/after-context.ts]

    A shallow embedding of the [AfterContext] class: its fields, the
    synchronous entry point [after], [addCallback], the close-wait task
    [runCallbacksOnClose], the drain [runCallbacks] and the error reporter
    [reportTaskError].

    JavaScript effects are made explicit.  Every method is a computation in a
    state-and-exception monad over a [World]: the coordinator's fields, the
    heap of work-unit stores it holds references to, the state of the
    close-wait promise, and a chronological trace of the observable events
    (host calls, console output, queue launches).  The ambient stores read
    through [AsyncLocalStorage.getStore()] are passed as an explicit
    [Ambient] argument.  The asynchronous parts (the host firing the close
    thunk, the continuation after an [await], a rejected promise, a callback
    that settles) are the actions of a transition system, [step]. *)

From stdpp Require Import base option list gmap strings.

Local Open Scope string_scope.
Local Open Scope list_scope.

(** ** Values *)

(** The result of JavaScript's [typeof]. *)
Inductive JsTypeof :=
| TyUndefined | TyObject | TyBoolean | TyNumber | TyBigint | TyString
| TySymbol | TyFunction.

#[global] Instance JsTypeof_eq_dec : EqDecision JsTypeof :=
  ltac:(solve_decision).

(** The values that reach the coordinator: the [task] argument (of any
    shape, the argument is checked at run time) and thrown values
    ([error: unknown]).  The two error classes the file constructs are kept
    apart from all other values, which are opaque apart from their [typeof]. *)
#[warnings="-register-all"]
Inductive JsValue :=
| VRef (ty : JsTypeof) (id : nat)
| VError (msg : string)
| VInvariantError (msg : string) (cause : option JsValue).

Definition typeof (v : JsValue) : JsTypeof :=
  match v with
  | VRef ty _ => ty
  | VError _ | VInvariantError _ _ => TyObject
  end.

(** [workUnitStore.phase] *)
Inductive Phase := PhaseRender | PhaseAction | PhaseAfter.

#[global] Instance Phase_eq_dec : EqDecision Phase :=
  ltac:(solve_decision).

(** References to the mutable work-unit stores and to the work store. *)
Definition StoreRef := nat.
Definition WorkStoreRef := nat.

(** [class CaptureStackTrace extends Error {}]: only its stack text matters. *)
Record CaptureStackTrace := { cst_stack : string }.

Record TaskCallerInfo := {
  callerStack : CaptureStackTrace;
  reactOwnerStack : option string
}.

(** [AfterTaskStore], with the fields the object literals of [after] and
    [addCallback] give it.  [AfterTaskStackInfo] is the same record: the
    root literal of [after] leaves [rootTaskSpawnPhase] out, which reads as
    [undefined], here [None]. *)
Record AfterTaskStore := {
  rootTaskSpawnPhase : option Phase;
  rootTaskReactOwnerStack : option string;
  rootTaskCallerStack : CaptureStackTrace;
  nestedTaskCallerStacks : option (list CaptureStackTrace)
}.

(** What the three [getStore()] calls return at a given point of execution. *)
Record Ambient := {
  amb_workUnitStore : option StoreRef;
  amb_afterTaskStore : option AfterTaskStore;
  amb_workStore : option WorkStoreRef
}.

(** The closure pushed on the queue: [bindSnapshot(unwrappedCallback)].  It
    closes over [callback] and [newAfterTaskStore], and [bindSnapshot] keeps
    the ambient stores of the scheduling site. *)
Record WrappedCallback := {
  wc_callback : JsValue;
  wc_store : AfterTaskStore;
  wc_snapshot : Ambient
}.

(** Host functions are known by a handle; calling one leaves an event. *)
Definition HostFn := nat.

(** The promises handed to [waitUntil]. *)
Inductive PromiseRef :=
| PCatch (k : nat)     (* what the k-th [task.catch(...)] returned *)
| PCloseWait.          (* what [runCallbacksOnClose()] returned *)

Inductive TaskKind := KindPromise | KindFunction.

Inductive ConsoleArg :=
| ArgText (s : string)
| ArgValue (v : JsValue).

Inductive Event :=
| EvCatchAttached (task : JsValue)
| EvWaitUntil (f : HostFn) (p : PromiseRef)
| EvOnClose (f : HostFn)
| EvCloseFired
| EvPhaseSet (s : StoreRef) (p : Phase)
| EvExecuteRevalidates (ws : WorkStoreRef)
| EvQueueStart
| EvCallbackBegin (cb : WrappedCallback)
| EvStitch (error : JsValue) (info : AfterTaskStore)
| EvConsoleError (args : list ConsoleArg)
| EvOnTaskError (error : JsValue)
| EvThrown (error : JsValue).

(** ** The callback queue *)

(** Modelled from the spec: the queue class ([next/dist/compiled/p-queue]) is
    not among the sources.  Section 4.2 of the specification: a FIFO of
    zero-argument procedures; [push] is always legal; [start] moves it from
    paused to running and launches everything queued, in submission order
    and with no concurrency ceiling; what is pushed on a running queue is
    launched at once; the queue is idle when nothing is queued or in flight.
    [pq_queue] holds what waits, [pq_pending] what was launched and has not
    settled. *)
Record PromiseQueue := {
  isPaused : bool;
  pq_queue : list WrappedCallback;
  pq_pending : list WrappedCallback
}.

(** Modelled from the spec: [new PromiseQueue()], not yet paused. *)
Definition pq_new : PromiseQueue :=
  {| isPaused := false; pq_queue := []; pq_pending := [] |}.

(** Modelled from the spec: [queue.pause()]. *)
Definition pq_pause (q : PromiseQueue) : PromiseQueue :=
  {| isPaused := true; pq_queue := pq_queue q; pq_pending := pq_pending q |}.

(** Modelled from the spec: [queue.size], the number of waiting items. *)
Definition pq_size (q : PromiseQueue) : nat := length (pq_queue q).

(** Modelled from the spec: launch what is queued unless paused; the events
    are the launches, in order. *)
Definition pq_process (q : PromiseQueue) : PromiseQueue * list Event :=
  if isPaused q then (q, [])
  else ({| isPaused := false; pq_queue := [];
           pq_pending := pq_pending q ++ pq_queue q |},
        map EvCallbackBegin (pq_queue q)).

(** Modelled from the spec: [queue.add(fn)]. *)
Definition pq_add (cb : WrappedCallback) (q : PromiseQueue)
  : PromiseQueue * list Event :=
  pq_process {| isPaused := isPaused q; pq_queue := pq_queue q ++ [cb];
                pq_pending := pq_pending q |}.

(** Modelled from the spec: [queue.start()]. *)
Definition pq_start (q : PromiseQueue) : PromiseQueue * list Event :=
  if isPaused q then
    pq_process {| isPaused := false; pq_queue := pq_queue q;
                  pq_pending := pq_pending q |}
  else (q, []).

(** Modelled from the spec: the condition [queue.onIdle()] waits for. *)
Definition pq_idle (q : PromiseQueue) : bool :=
  match pq_queue q, pq_pending q with
  | [], [] => true
  | _, _ => false
  end.

(** ** The coordinator and its world *)

Inductive Outcome (A : Type) :=
| Ret (a : A)
| Throw (e : JsValue).
Arguments Ret {A} a.
Arguments Throw {A} e.

Record AfterContextOpts := {
  opt_isEnabled : bool;
  opt_waitUntil : option HostFn;
  opt_onClose : HostFn;
  opt_onTaskError : option (JsValue -> Outcome unit)
}.

Record AfterContext := {
  waitUntil : option HostFn;
  onClose : HostFn;
  onTaskError : option (JsValue -> Outcome unit);
  isEnabled : bool;
  runCallbacksOnClosePromise : option PromiseRef;
  callbackQueue : PromiseQueue;
  workUnitStores : list StoreRef   (* a JS [Set]: insertion order, no duplicates *)
}.

(** The state of the promise returned by [runCallbacksOnClose]. *)
Inductive CloseWait :=
| CWUnarmed                        (* not called yet *)
| CWAwaitingClose                  (* [onClose(resolve)] called, awaiting *)
| CWResolved                       (* thunk invoked, continuation not yet run *)
| CWDraining (ws : WorkStoreRef)   (* queue started, awaiting [onIdle()] *)
| CWFulfilled
| CWRejected (e : JsValue).

Record World := {
  w_ctx : AfterContext;
  w_stores : gmap StoreRef (option Phase);
  w_closeWait : CloseWait;
  w_catchHandlers : list (JsValue * TaskCallerInfo);
  w_trace : list Event
}.

(** Reading [store.phase]; a store without the field reads [undefined]. *)
Definition phase_of (h : gmap StoreRef (option Phase)) (s : StoreRef)
  : option Phase := default None (h !! s).

(** [constructor({ waitUntil, onClose, onTaskError, isEnabled })] *)
Definition constructor (opts : AfterContextOpts) : AfterContext :=
  {| waitUntil := opt_waitUntil opts;
     onClose := opt_onClose opts;
     onTaskError := opt_onTaskError opts;
     isEnabled := opt_isEnabled opts;
     runCallbacksOnClosePromise := None;
     callbackQueue := pq_pause pq_new;
     workUnitStores := [] |}.

Definition init_world (opts : AfterContextOpts)
    (h : gmap StoreRef (option Phase)) : World :=
  {| w_ctx := constructor opts; w_stores := h; w_closeWait := CWUnarmed;
     w_catchHandlers := []; w_trace := [] |}.

(** ** The monad *)

Definition M (A : Type) : Type := World -> Outcome A * World.

Definition ret {A} (a : A) : M A := fun w => (Ret a, w).
Definition throw {A} (e : JsValue) : M A := fun w => (Throw e, w).
Definition bindM {A B} (m : M A) (k : A -> M B) : M B :=
  fun w => match m w with
           | (Ret a, w1) => k a w1
           | (Throw e, w1) => (Throw e, w1)
           end.
Definition try_catch {A} (m : M A) (h : JsValue -> M A) : M A :=
  fun w => match m w with
           | (Ret a, w1) => (Ret a, w1)
           | (Throw e, w1) => h e w1
           end.
Definition gets {A} (f : World -> A) : M A := fun w => (Ret (f w), w).
Definition modify (f : World -> World) : M unit := fun w => (Ret tt, f w).
Definition lift_outcome {A} (o : Outcome A) : M A := fun w => (o, w).

Notation "'let!' x ':=' m 'in' k" := (bindM m (fun x => k))
  (at level 10, x name, m at level 100, k at level 200, only parsing).
Notation "m ;;; k" := (bindM m (fun _ => k))
  (at level 100, k at level 200, right associativity, only parsing).

Definition set_ctx (c : AfterContext) (w : World) : World :=
  {| w_ctx := c; w_stores := w_stores w; w_closeWait := w_closeWait w;
     w_catchHandlers := w_catchHandlers w; w_trace := w_trace w |}.
Definition set_stores (h : gmap StoreRef (option Phase)) (w : World) : World :=
  {| w_ctx := w_ctx w; w_stores := h; w_closeWait := w_closeWait w;
     w_catchHandlers := w_catchHandlers w; w_trace := w_trace w |}.
Definition set_closeWait (c : CloseWait) (w : World) : World :=
  {| w_ctx := w_ctx w; w_stores := w_stores w; w_closeWait := c;
     w_catchHandlers := w_catchHandlers w; w_trace := w_trace w |}.
Definition set_catchHandlers (l : list (JsValue * TaskCallerInfo)) (w : World)
  : World :=
  {| w_ctx := w_ctx w; w_stores := w_stores w; w_closeWait := w_closeWait w;
     w_catchHandlers := l; w_trace := w_trace w |}.
Definition log (evs : list Event) (w : World) : World :=
  {| w_ctx := w_ctx w; w_stores := w_stores w; w_closeWait := w_closeWait w;
     w_catchHandlers := w_catchHandlers w; w_trace := w_trace w ++ evs |}.

Definition emit (e : Event) : M unit := modify (log [e]).

Definition set_queue (q : PromiseQueue) (c : AfterContext) : AfterContext :=
  {| waitUntil := waitUntil c; onClose := onClose c;
     onTaskError := onTaskError c; isEnabled := isEnabled c;
     runCallbacksOnClosePromise := runCallbacksOnClosePromise c;
     callbackQueue := q; workUnitStores := workUnitStores c |}.
Definition set_promise (p : option PromiseRef) (c : AfterContext)
  : AfterContext :=
  {| waitUntil := waitUntil c; onClose := onClose c;
     onTaskError := onTaskError c; isEnabled := isEnabled c;
     runCallbacksOnClosePromise := p;
     callbackQueue := callbackQueue c; workUnitStores := workUnitStores c |}.
Definition set_workUnitStores (l : list StoreRef) (c : AfterContext)
  : AfterContext :=
  {| waitUntil := waitUntil c; onClose := onClose c;
     onTaskError := onTaskError c; isEnabled := isEnabled c;
     runCallbacksOnClosePromise := runCallbacksOnClosePromise c;
     callbackQueue := callbackQueue c; workUnitStores := l |}.

(** [Set.prototype.add]: nothing happens when the element is there. *)
Definition Set_add (s : StoreRef) (l : list StoreRef) : list StoreRef :=
  if decide (s ∈ l) then l else l ++ [s].

(** ** The methods of [AfterContext] *)

Definition msg_waitUntil : string :=
  "`unstable_after()` will not work correctly, because `waitUntil` is not available in the current environment.".
Definition msg_usage : string :=
  "`unstable_after()`: Argument must be a promise or a function".
Definition msg_missing_workStore : string :=
  "Missing workStore in AfterContext.runCallbacks".
Definition msg_stitch : string :=
  "Could not stitch callstack for after callback".
Definition msg_hook : string :=
  "`onTaskError` threw while handling an error thrown from an `unstable_after` task".
Definition msg_promise_rejected : string :=
  "A promise passed to `unstable_after()` rejected:".
Definition msg_function_failed : string :=
  "An error occurred in a function passed to `unstable_after()`:".

(** [errorWaitUntilNotAvailable(): never] *)
Definition errorWaitUntilNotAvailable {A} : M A :=
  throw (VError msg_waitUntil).

(** [if (!this.waitUntil) { errorWaitUntilNotAvailable() }], giving the
    function that the later [this.waitUntil(...)] calls. *)
Definition require_waitUntil : M HostFn :=
  let! wu := gets (fun w => waitUntil (w_ctx w)) in
  match wu with
  | None => errorWaitUntilNotAvailable
  | Some f => ret f
  end.

(** [this.waitUntil(p)] *)
Definition call_waitUntil (f : HostFn) (p : PromiseRef) : M unit :=
  emit (EvWaitUntil f p).

(** [console.error(...args)] *)
Definition console_error (args : list ConsoleArg) : M unit :=
  emit (EvConsoleError args).

(** The record both [after] and [addCallback] build: the root literal when
    no [afterTaskAsyncStorage] store is active, otherwise a copy of the
    outer store ([...outer]) whose [nestedTaskCallerStacks] is
    [[callerStack, ...(outer.nestedTaskCallerStacks ?? [])]]. *)
Definition buildStackInfo (spawnPhase : option Phase)
    (callerInfo : TaskCallerInfo) (outer : option AfterTaskStore)
  : AfterTaskStore :=
  match outer with
  | None =>
      {| rootTaskSpawnPhase := spawnPhase;
         rootTaskReactOwnerStack := reactOwnerStack callerInfo;
         rootTaskCallerStack := callerStack callerInfo;
         nestedTaskCallerStacks := None |}
  | Some o =>
      {| rootTaskSpawnPhase := rootTaskSpawnPhase o;
         rootTaskReactOwnerStack := rootTaskReactOwnerStack o;
         rootTaskCallerStack := rootTaskCallerStack o;
         nestedTaskCallerStacks :=
           Some (callerStack callerInfo
                   :: default [] (nestedTaskCallerStacks o)) |}
  end.

Section Coordinator.

(** Imported helpers whose files are not among the sources; the
    coordinator is verified for every behaviour they can have.
    [stitchAfterCallstack] returns the stitched error or throws. *)
Variable isThenable : JsValue -> bool.
Variable isError : JsValue -> bool.
Variable stitchAfterCallstack :
  JsValue -> AfterTaskStore -> Outcome JsValue.

(** [this.onTaskError?.(error)] *)
Definition call_onTaskError (hook : JsValue -> Outcome unit)
    (error : JsValue) : M unit :=
  emit (EvOnTaskError error) ;;; lift_outcome (hook error).

(** [reportTaskError(taskKind, error, stackInfo)].  The [stackInfo &&]
    test is kept: [None] is a falsy [stackInfo]. *)
Definition reportTaskError (taskKind : TaskKind) (error : JsValue)
    (stackInfo : option AfterTaskStore) : M unit :=
  let! error := match stackInfo with
           | Some info =>
               if isError error then
                 try_catch
                   (emit (EvStitch error info) ;;;
                    lift_outcome (stitchAfterCallstack error info))
                   (fun stitchError =>
                      console_error
                        [ArgValue (VInvariantError msg_stitch
                                     (Some stitchError))] ;;;
                      ret error)
               else ret error
           | None => ret error
           end in
  console_error
    [ArgText match taskKind with
             | KindPromise => msg_promise_rejected
             | KindFunction => msg_function_failed
             end;
     ArgValue error] ;;;
  let! hook := gets (fun w => onTaskError (w_ctx w)) in
  match hook with
  | Some h =>
      try_catch (call_onTaskError h error)
        (fun handlerError =>
           console_error
             [ArgValue (VInvariantError msg_hook (Some handlerError))])
  | None => ret tt
  end.

(** The handler given to [task.catch]: it runs when the task rejects,
    under the stores ambient then. *)
Definition catchHandler (callerInfo : TaskCallerInfo) (error : JsValue)
    (amb : Ambient) : M unit :=
  reportTaskError KindPromise error
    (Some (buildStackInfo None callerInfo (amb_afterTaskStore amb))).

(** [task.catch(handler)]: the handler is attached to the task and a new
    promise comes back. *)
Definition task_catch (task : JsValue) (callerInfo : TaskCallerInfo)
  : M PromiseRef :=
  let! hs := gets w_catchHandlers in
  modify (set_catchHandlers (hs ++ [(task, callerInfo)])) ;;;
  emit (EvCatchAttached task) ;;;
  ret (PCatch (length hs)).

(** [runCallbacksOnClose()], up to its [await]: the promise executor calls
    [this.onClose(resolve)] at once. *)
Definition runCallbacksOnClose : M PromiseRef :=
  let! f := gets (fun w => onClose (w_ctx w)) in
  emit (EvOnClose f) ;;;
  modify (set_closeWait CWAwaitingClose) ;;;
  ret PCloseWait.

(** [this.callbackQueue.add(wrappedCallback)] *)
Definition queue_add (cb : WrappedCallback) : M unit :=
  let! q := gets (fun w => callbackQueue (w_ctx w)) in
  let '(q', evs) := pq_add cb q in
  modify (fun w => log evs (set_ctx (set_queue q' (w_ctx w)) w)).

(** [this.callbackQueue.start()] *)
Definition queue_start : M unit :=
  let! q := gets (fun w => callbackQueue (w_ctx w)) in
  let '(q', evs) := pq_start q in
  modify (fun w => log (EvQueueStart :: evs)
                     (set_ctx (set_queue q' (w_ctx w)) w)).

(** [addCallback(callback, callerInfo)] *)
Definition addCallback (callback : JsValue) (callerInfo : TaskCallerInfo)
    (amb : Ambient) : M unit :=
  let! f := require_waitUntil in
  match amb_workUnitStore amb with
  | Some s =>
      modify (fun w =>
        set_ctx (set_workUnitStores
                   (Set_add s (workUnitStores (w_ctx w))) (w_ctx w)) w)
  | None => ret tt
  end ;;;
  let! spawnPhase := gets (fun w =>
    match amb_workUnitStore amb with
    | Some s => phase_of (w_stores w) s
    | None => None
    end) in
  let newAfterTaskStore :=
    buildStackInfo spawnPhase callerInfo (amb_afterTaskStore amb) in
  let wrappedCallback :=
    {| wc_callback := callback; wc_store := newAfterTaskStore;
       wc_snapshot := amb |} in
  queue_add wrappedCallback ;;;
  let! p := gets (fun w => runCallbacksOnClosePromise (w_ctx w)) in
  match p with
  | Some _ => ret tt
  | None =>
      let! pr := runCallbacksOnClose in
      modify (fun w => set_ctx (set_promise (Some pr) (w_ctx w)) w) ;;;
      call_waitUntil f pr
  end.

(** [after(task, callerInfo)] *)
Definition after (task : JsValue) (callerInfo : TaskCallerInfo)
    (amb : Ambient) : M unit :=
  if isThenable task then
    let! f := require_waitUntil in
    let! p := task_catch task callerInfo in
    call_waitUntil f p
  else if decide (typeof task = TyFunction) then
    addCallback task callerInfo amb
  else
    throw (VError msg_usage).

(** [for (const workUnitStore of this.workUnitStores)
       workUnitStore.phase = 'after'] *)
Fixpoint flipPhases (l : list StoreRef) : M unit :=
  match l with
  | [] => ret tt
  | s :: l' =>
      modify (fun w => log [EvPhaseSet s PhaseAfter]
                         (set_stores (<[s := Some PhaseAfter]> (w_stores w)) w)) ;;;
      flipPhases l'
  end.

(** How far the [async] body of [runCallbacks] got when it first yields. *)
Inductive DrainStatus :=
| DrainNothing                      (* the early [return] *)
| DrainAwaitIdle (ws : WorkStoreRef). (* inside [withExecuteRevalidates] *)

(** [runCallbacks()], up to its wait for [onIdle()].  A [Throw] is the
    rejection of the promise the [async] function returns.
    [withExecuteRevalidates] is not among the sources; by section 6 of the
    specification it runs the function it is given and applies the recorded
    revalidations afterwards, which is the [QueueIdle] action below. *)
Definition runCallbacks (amb : Ambient) : M DrainStatus :=
  let! q := gets (fun w => callbackQueue (w_ctx w)) in
  if Nat.eqb (pq_size q) 0 then ret DrainNothing
  else
    let! l := gets (fun w => workUnitStores (w_ctx w)) in
    flipPhases l ;;;
    match amb_workStore amb with
    | None => throw (VInvariantError msg_missing_workStore None)
    | Some workStore =>
        queue_start ;;;
        ret (DrainAwaitIdle workStore)
    end.

(** ** The asynchronous behaviour as a transition system *)

Inductive Action :=
| CallAfter (task : JsValue) (callerInfo : TaskCallerInfo) (amb : Ambient)
    (* request code, or a running callback, calls [after] *)
| FireClose
    (* the host invokes the thunk it got through [onClose] *)
| ResumeCloseWait (amb : Ambient)
    (* [runCallbacksOnClose] continues after its [await] *)
| TaskRejects (k : nat) (error : JsValue) (amb : Ambient)
    (* the task of the k-th [catch] rejects and its handler runs *)
| CallbackSettles (i : nat) (failure : option JsValue)
    (* the i-th callback in flight returns, or throws or rejects *)
| QueueIdle.
    (* [onIdle()] resolves and [withExecuteRevalidates] finishes *)

(** A synchronous error of [after] goes to its caller; the trace keeps it. *)
Definition run_sync {A} (m : M A) (w : World) : World :=
  match m w with
  | (Ret _, w1) => w1
  | (Throw e, w1) => log [EvThrown e] w1
  end.

Definition remove_pending (i : nat) (q : PromiseQueue) : PromiseQueue :=
  {| isPaused := isPaused q; pq_queue := pq_queue q;
     pq_pending := delete i (pq_pending q) |}.

(** One action; [None] when the action cannot happen in that state. *)
Definition step (a : Action) (w : World) : option World :=
  match a with
  | CallAfter task callerInfo amb =>
      Some (run_sync (after task callerInfo amb) w)
  | FireClose =>
      match w_closeWait w with
      | CWUnarmed => None
      | CWAwaitingClose => Some (log [EvCloseFired] (set_closeWait CWResolved w))
      | _ => Some (log [EvCloseFired] w)
      end
  | ResumeCloseWait amb =>
      match w_closeWait w with
      | CWResolved =>
          Some match runCallbacks amb w with
               | (Ret DrainNothing, w1) => set_closeWait CWFulfilled w1
               | (Ret (DrainAwaitIdle ws), w1) => set_closeWait (CWDraining ws) w1
               | (Throw e, w1) => set_closeWait (CWRejected e) w1
               end
      | _ => None
      end
  | TaskRejects k error amb =>
      match w_catchHandlers w !! k with
      | Some (_, callerInfo) =>
          Some (run_sync (catchHandler callerInfo error amb) w)
      | None => None
      end
  | CallbackSettles i failure =>
      match pq_pending (callbackQueue (w_ctx w)) !! i with
      | Some cb =>
          let w1 := set_ctx (set_queue (remove_pending i (callbackQueue (w_ctx w)))
                               (w_ctx w)) w in
          Some match failure with
               | Some error =>
                   run_sync (reportTaskError KindFunction error
                               (Some (wc_store cb))) w1
               | None => w1
               end
      | None => None
      end
  | QueueIdle =>
      match w_closeWait w with
      | CWDraining ws =>
          if pq_idle (callbackQueue (w_ctx w)) then
            Some (log [EvExecuteRevalidates ws] (set_closeWait CWFulfilled w))
          else None
      | _ => None
      end
  end.

Fixpoint exec (acts : list Action) (w : World) : option World :=
  match acts with
  | [] => Some w
  | a :: rest =>
      match step a w with
      | Some w1 => exec rest w1
      | None => None
      end
  end.

End Coordinator.

(** ** Reading traces *)

(** Every occurrence of [e2] in [t] has an [e1] somewhere before it. *)
Definition precedes (e1 e2 : Event) (t : list Event) : Prop :=
  forall l1 l2, t = l1 ++ e2 :: l2 -> e1 ∈ l1.

(** The events only the error reporter produces. *)
Definition is_report_event (e : Event) : bool :=
  match e with
  | EvStitch _ _ | EvConsoleError _ | EvOnTaskError _ => true
  | _ => false
  end.

Definition is_callback_begin (e : Event) : bool :=
  match e with EvCallbackBegin _ => true | _ => false end.

Definition is_onClose (e : Event) : bool :=
  match e with EvOnClose _ => true | _ => false end.

Definition is_waitUntil_closeWait (e : Event) : bool :=
  match e with EvWaitUntil _ PCloseWait => true | _ => false end.

(** The events by which a callback starts to run. *)
Definition launches (e : Event) : bool :=
  match e with
  | EvQueueStart | EvCallbackBegin _ => true
  | _ => false
  end.

Fixpoint count_events (p : Event -> bool) (t : list Event) : nat :=
  match t with
  | [] => 0
  | e :: t' => (if p e then 1 else 0) + count_events p t'
  end.

(** What one action may do to the world, as far as the launch of callbacks
    and the arming of the close-wait task are concerned; [evs] are the
    events it appends. *)
Definition step_effect (w w' : World) (evs : list Event) : Prop :=
  let q := callbackQueue (w_ctx w) in
  let q' := callbackQueue (w_ctx w') in
  w_trace w' = w_trace w ++ evs
  /\ (forall e, e ∈ evs -> launches e = true ->
        isPaused q = false \/ w_closeWait w = CWResolved)
  /\ (isPaused q' = false ->
        isPaused q = false \/ w_closeWait w = CWResolved)
  /\ (isPaused q = false -> isPaused q' = false)
  /\ (w_closeWait w' = CWResolved ->
        w_closeWait w = CWResolved \/ EvCloseFired ∈ evs)
  /\ (isPaused q' = true -> pq_pending q = [] -> pq_pending q' = [])
  /\ (runCallbacksOnClosePromise (w_ctx w') = None ->
      w_closeWait w = CWUnarmed -> pq_pending q = [] ->
      q' = q /\ w_closeWait w' = CWUnarmed)
  /\ match runCallbacksOnClosePromise (w_ctx w) with
     | Some p =>
         runCallbacksOnClosePromise (w_ctx w') = Some p
         /\ count_events is_onClose evs = 0
         /\ count_events is_waitUntil_closeWait evs = 0
     | None =>
         (runCallbacksOnClosePromise (w_ctx w') = None
          /\ count_events is_onClose evs = 0
          /\ count_events is_waitUntil_closeWait evs = 0)
         \/ (runCallbacksOnClosePromise (w_ctx w') = Some PCloseWait
             /\ count_events is_onClose evs = 1
             /\ count_events is_waitUntil_closeWait evs = 1)
     end.

(** What holds of every world the coordinator can reach. *)
Definition close_invariant (w : World) : Prop :=
  let q := callbackQueue (w_ctx w) in
  (isPaused q = false -> EvCloseFired ∈ w_trace w)
  /\ (w_closeWait w = CWResolved -> EvCloseFired ∈ w_trace w)
  /\ (isPaused q = true -> pq_pending q = [])
  /\ (forall e, launches e = true -> precedes EvCloseFired e (w_trace w)).

Definition arming_invariant (w : World) : Prop :=
  match runCallbacksOnClosePromise (w_ctx w) with
  | Some p =>
      p = PCloseWait
      /\ count_events is_onClose (w_trace w) = 1
      /\ count_events is_waitUntil_closeWait (w_trace w) = 1
  | None =>
      callbackQueue (w_ctx w) = pq_pause pq_new
      /\ w_closeWait w = CWUnarmed
      /\ count_events is_onClose (w_trace w) = 0
      /\ count_events is_waitUntil_closeWait (w_trace w) = 0
  end.

(** The heap after the phase loop over [l]. *)
Definition flipped (h : gmap StoreRef (option Phase)) (l : list StoreRef)
  : gmap StoreRef (option Phase) :=
  foldl (fun h s => <[s := Some PhaseAfter]> h) h l.

(** The console line of a failed stitch, of a failed hook, and of the task
    failure itself. *)
Definition stitch_failure_log (stitchError : JsValue) : Event :=
  EvConsoleError [ArgValue (VInvariantError msg_stitch (Some stitchError))].

Definition hook_failure_log (handlerError : JsValue) : Event :=
  EvConsoleError [ArgValue (VInvariantError msg_hook (Some handlerError))].

Definition task_failure_log (taskKind : TaskKind) (error : JsValue) : Event :=
  EvConsoleError
    [ArgText match taskKind with
             | KindPromise => msg_promise_rejected
             | KindFunction => msg_function_failed
             end;
     ArgValue error].

(** The events of the stitching step of the reporter, and the error it
    hands on to the logging step. *)
Definition stitch_step (isError : JsValue -> bool)
    (stitch : JsValue -> AfterTaskStore -> Outcome JsValue)
    (error : JsValue) (stackInfo : option AfterTaskStore)
  : list Event * JsValue :=
  match stackInfo with
  | Some info =>
      if isError error then
        match stitch error info with
        | Ret stitched => ([EvStitch error info], stitched)
        | Throw stitchError =>
            ([EvStitch error info; stitch_failure_log stitchError], error)
        end
      else ([], error)
  | None => ([], error)
  end.

(** The events of the hook step. *)
Definition hook_step (hook : option (JsValue -> Outcome unit))
    (error : JsValue) : list Event :=
  match hook with
  | None => []
  | Some h =>
      EvOnTaskError error ::
      match h error with
      | Ret _ => []
      | Throw handlerError => [hook_failure_log handlerError]
      end
  end.

(** Everything one call of the reporter leaves in the trace. *)
Definition report_events (isError : JsValue -> bool)
    (stitch : JsValue -> AfterTaskStore -> Outcome JsValue)
    (taskKind : TaskKind) (error : JsValue)
    (stackInfo : option AfterTaskStore)
    (hook : option (JsValue -> Outcome unit)) : list Event :=
  let '(evs, error') := stitch_step isError stitch error stackInfo in
  evs ++ task_failure_log taskKind error' :: hook_step hook error'.

Definition is_stitch_step_event (e : Event) : bool :=
  match e with
  | EvStitch _ _ => true
  | EvConsoleError [ArgValue (VInvariantError m (Some _))] =>
      bool_decide (m = msg_stitch)
  | _ => false
  end.

(** The callback most recently handed to the queue. *)
Definition last_added (q : PromiseQueue) : option WrappedCallback :=
  last (pq_pending q ++ pq_queue q).

(** What the specification says of the record a call builds, given the
    store [outer] of the enclosing task, if any: a root call has no nested
    sequence and takes its root fields from its own caller info; a nested
    call copies the three root fields and puts its caller stack in front of
    the nested sequence. *)
Definition extends_chain (callerInfo : TaskCallerInfo)
    (outer : option AfterTaskStore) (r : AfterTaskStore) : Prop :=
  match outer with
  | None =>
      nestedTaskCallerStacks r = None
      /\ rootTaskCallerStack r = callerStack callerInfo
      /\ rootTaskReactOwnerStack r = reactOwnerStack callerInfo
  | Some o =>
      nestedTaskCallerStacks r
      = Some (callerStack callerInfo :: default [] (nestedTaskCallerStacks o))
      /\ rootTaskSpawnPhase r = rootTaskSpawnPhase o
      /\ rootTaskCallerStack r = rootTaskCallerStack o
      /\ rootTaskReactOwnerStack r = rootTaskReactOwnerStack o
  end.

(** A chain of nested scheduling: each call of [addCallback] is made by the
    callback the call before it queued, that is, under the store that call
    built ([afterTaskAsyncStorage.run(newAfterTaskStore, ...)]).  Returns
    the store built by the last call. *)
Fixpoint scheduleNested (calls : list (JsValue * TaskCallerInfo * option StoreRef))
    (outer : option AfterTaskStore) (w : World)
  : option AfterTaskStore * World :=
  match calls with
  | [] => (outer, w)
  | (callback, callerInfo, s) :: rest =>
      let amb := {| amb_workUnitStore := s; amb_afterTaskStore := outer;
                    amb_workStore := None |} in
      let w1 := (addCallback callback callerInfo amb w).2 in
      scheduleNested rest
        (wc_store <$> last_added (callbackQueue (w_ctx w1))) w1
  end.

(** ** A concrete host, to run the model *)

Module Sample.

(** Objects with an even identity have a callable [then]. *)
Definition isThenable (v : JsValue) : bool :=
  match v with
  | VRef TyObject id => Nat.even id
  | _ => false
  end.

Definition isError (v : JsValue) : bool :=
  match v with
  | VError _ | VInvariantError _ _ => true
  | VRef _ _ => false
  end.

(** A stitcher that fails on the error with message [opaque]. *)
Definition stitchAfterCallstack (e : JsValue) (info : AfterTaskStore)
  : Outcome JsValue :=
  match e with
  | VError "opaque" => Throw (VRef TyString 0)
  | VError m => Ret (VError (String.append m (cst_stack (rootTaskCallerStack info))))
  | _ => Ret e
  end.

Definition throwingHook (e : JsValue) : Outcome unit := Throw (VRef TyNumber 7).

Definition opts : AfterContextOpts :=
  {| opt_isEnabled := true; opt_waitUntil := Some 1; opt_onClose := 2;
     opt_onTaskError := Some throwingHook |}.

Definition opts_no_waitUntil : AfterContextOpts :=
  {| opt_isEnabled := true; opt_waitUntil := None; opt_onClose := 2;
     opt_onTaskError := None |}.

Definition heap : gmap StoreRef (option Phase) :=
  <[5 := Some PhaseAction]> (<[6 := Some PhaseRender]> ∅).

Definition caller (s : string) : TaskCallerInfo :=
  {| callerStack := {| cst_stack := s |}; reactOwnerStack := None |}.

Definition in_request (s : StoreRef) : Ambient :=
  {| amb_workUnitStore := Some s; amb_afterTaskStore := None;
     amb_workStore := Some 9 |}.

Definition no_workStore : Ambient :=
  {| amb_workUnitStore := None; amb_afterTaskStore := None;
     amb_workStore := None |}.

Definition fn (id : nat) : JsValue := VRef TyFunction id.
Definition promise (id : nat) : JsValue := VRef TyObject (2 * id).

Definition run := exec isThenable isError stitchAfterCallstack.

(** Two procedures scheduled from two work-unit stores, not yet closed. *)
Definition armed : World :=
  default (init_world opts heap)
    (run [CallAfter (fn 1) (caller "a") (in_request 5);
          CallAfter (fn 2) (caller "b") (in_request 6)]
       (init_world opts heap)).

(** The same, then the response closes, the drain starts, and a third
    procedure is scheduled while the queue runs. *)
Definition closed_acts : list Action :=
  [CallAfter (fn 1) (caller "a") (in_request 5);
   CallAfter (fn 2) (caller "b") (in_request 6);
   FireClose;
   ResumeCloseWait (in_request 5);
   CallAfter (fn 3) (caller "c") (in_request 5)].

Definition closed : World :=
  default (init_world opts heap) (run closed_acts (init_world opts heap)).

End Sample.

(** ** The steps as a relation *)

Definition is_queue_start (e : Event) : bool :=
  match e with EvQueueStart => true | _ => false end.

Definition is_phase_set (e : Event) : bool :=
  match e with EvPhaseSet _ _ => true | _ => false end.

Definition is_thrown (e : Event) : bool :=
  match e with EvThrown _ => true | _ => false end.

Definition is_host_call (e : Event) : bool :=
  match e with
  | EvWaitUntil _ _ | EvOnClose _ | EvOnTaskError _ => true
  | _ => false
  end.

Definition is_stitch_attempt (e : Event) : bool :=
  match e with EvStitch _ _ => true | _ => false end.

Definition is_hook_call (e : Event) : bool :=
  match e with EvOnTaskError _ => true | _ => false end.

(** The console line of a task failure, of either kind. *)
Definition is_task_failure_log (e : Event) : bool :=
  match e with
  | EvConsoleError [ArgText m; ArgValue _] =>
      bool_decide (m = msg_promise_rejected)
      || bool_decide (m = msg_function_failed)
  | _ => false
  end.

(** The callbacks launched in a trace, in the order of their launch. *)
Fixpoint launched (t : list Event) : list WrappedCallback :=
  match t with
  | [] => []
  | EvCallbackBegin cb :: t' => cb :: launched t'
  | _ :: t' => launched t'
  end.

(** The closure [addCallback] queues for a call made under [amb] when the
    stores are [h]. *)
Definition wrap (h : gmap StoreRef (option Phase)) (callback : JsValue)
    (callerInfo : TaskCallerInfo) (amb : Ambient) : WrappedCallback :=
  {| wc_callback := callback;
     wc_store :=
       buildStackInfo
         match amb_workUnitStore amb with
         | Some s => phase_of h s
         | None => None
         end callerInfo (amb_afterTaskStore amb);
     wc_snapshot := amb |}.

(** The world a successful [addCallback] leaves, with [f] the configured
    [waitUntil]. *)
Definition added (callback : JsValue) (callerInfo : TaskCallerInfo)
    (amb : Ambient) (f : HostFn) (w : World) : World :=
  let obs := match amb_workUnitStore amb with
             | Some s => Set_add s (workUnitStores (w_ctx w))
             | None => workUnitStores (w_ctx w)
             end in
  let q := pq_add (wrap (w_stores w) callback callerInfo amb)
             (callbackQueue (w_ctx w)) in
  let c1 := set_queue q.1 (set_workUnitStores obs (w_ctx w)) in
  match runCallbacksOnClosePromise (w_ctx w) with
  | Some _ => log q.2 (set_ctx c1 w)
  | None =>
      log (q.2 ++ [EvOnClose (onClose (w_ctx w)); EvWaitUntil f PCloseWait])
        (set_closeWait CWAwaitingClose
           (set_ctx (set_promise (Some PCloseWait) c1) w))
  end.

(** The world after the phase loop of [runCallbacks]. *)
Definition phases_flipped (w : World) : World :=
  log (map (fun s => EvPhaseSet s PhaseAfter) (workUnitStores (w_ctx w)))
    (set_stores (flipped (w_stores w) (workUnitStores (w_ctx w))) w).

(** The world after [this.callbackQueue.start()] in [runCallbacks]. *)
Definition queue_started (w : World) : World :=
  log (EvQueueStart :: (pq_start (callbackQueue (w_ctx w))).2)
    (set_ctx (set_queue (pq_start (callbackQueue (w_ctx w))).1 (w_ctx w))
       (phases_flipped w)).

Definition settled (i : nat) (w : World) : World :=
  set_ctx (set_queue (remove_pending i (callbackQueue (w_ctx w))) (w_ctx w)) w.

(** What [step] can do, one case per way an action can go. *)
Inductive step_rel (isError : JsValue -> bool)
    (stitch : JsValue -> AfterTaskStore -> Outcome JsValue)
    (w : World) : World -> Prop :=
| SR_throw e :
    step_rel isError stitch w (log [EvThrown e] w)
| SR_thenable task callerInfo f :
    waitUntil (w_ctx w) = Some f ->
    step_rel isError stitch w
      (log [EvCatchAttached task;
            EvWaitUntil f (PCatch (length (w_catchHandlers w)))]
         (set_catchHandlers (w_catchHandlers w ++ [(task, callerInfo)]) w))
| SR_add callback callerInfo amb f :
    waitUntil (w_ctx w) = Some f ->
    step_rel isError stitch w (added callback callerInfo amb f w)
| SR_close_first :
    w_closeWait w = CWAwaitingClose ->
    step_rel isError stitch w (log [EvCloseFired] (set_closeWait CWResolved w))
| SR_close_again :
    w_closeWait w <> CWUnarmed ->
    w_closeWait w <> CWAwaitingClose ->
    step_rel isError stitch w (log [EvCloseFired] w)
| SR_drain_nothing :
    w_closeWait w = CWResolved ->
    pq_size (callbackQueue (w_ctx w)) = 0 ->
    step_rel isError stitch w (set_closeWait CWFulfilled w)
| SR_drain_fatal :
    w_closeWait w = CWResolved ->
    pq_size (callbackQueue (w_ctx w)) <> 0 ->
    step_rel isError stitch w
      (set_closeWait (CWRejected (VInvariantError msg_missing_workStore None))
         (phases_flipped w))
| SR_drain_start ws :
    w_closeWait w = CWResolved ->
    pq_size (callbackQueue (w_ctx w)) <> 0 ->
    step_rel isError stitch w (set_closeWait (CWDraining ws) (queue_started w))
| SR_reject k task callerInfo error amb :
    w_catchHandlers w !! k = Some (task, callerInfo) ->
    step_rel isError stitch w
      (log (report_events isError stitch KindPromise error
              (Some (buildStackInfo None callerInfo (amb_afterTaskStore amb)))
              (onTaskError (w_ctx w))) w)
| SR_settle_ok i cb :
    pq_pending (callbackQueue (w_ctx w)) !! i = Some cb ->
    step_rel isError stitch w (settled i w)
| SR_settle_fail i cb error :
    pq_pending (callbackQueue (w_ctx w)) !! i = Some cb ->
    step_rel isError stitch w
      (log (report_events isError stitch KindFunction error
              (Some (wc_store cb)) (onTaskError (w_ctx w)))
         (settled i w))
| SR_idle ws :
    w_closeWait w = CWDraining ws ->
    pq_idle (callbackQueue (w_ctx w)) = true ->
    step_rel isError stitch w
      (log [EvExecuteRevalidates ws] (set_closeWait CWFulfilled w)).

(** The close-wait task has been created and the drain has not run. *)
Definition awaiting_drain (c : CloseWait) : Prop :=
  c = CWAwaitingClose \/ c = CWResolved.

(** The drain has not run. *)
Definition before_drain (c : CloseWait) : Prop :=
  c = CWUnarmed \/ awaiting_drain c.

(** What holds of every world reached from [init_world opts h]. *)
Definition reach_invariant (opts : AfterContextOpts)
    (h : gmap StoreRef (option Phase)) (w : World) : Prop :=
  let c := w_ctx w in
  let q := callbackQueue c in
  (waitUntil c = opt_waitUntil opts /\ onClose c = opt_onClose opts
   /\ onTaskError c = opt_onTaskError opts /\ isEnabled c = opt_isEnabled opts)
  /\ NoDup (workUnitStores c)
  /\ (runCallbacksOnClosePromise c = None <-> w_closeWait w = CWUnarmed)
  /\ (w_closeWait w = CWUnarmed -> q = pq_pause pq_new)
  /\ (awaiting_drain (w_closeWait w) -> pq_queue q <> [])
  /\ (before_drain (w_closeWait w) ->
      isPaused q = true /\ w_stores w = h
      /\ forall e, e ∈ w_trace w ->
           is_queue_start e = false /\ is_phase_set e = false)
  /\ (w_closeWait w <> CWUnarmed -> w_closeWait w <> CWAwaitingClose ->
      EvCloseFired ∈ w_trace w)
  /\ count_events is_queue_start (w_trace w) <= 1
  /\ (forall s p, EvPhaseSet s p ∈ w_trace w ->
        p = PhaseAfter /\ s ∈ workUnitStores c)
  /\ (opt_waitUntil opts = None ->
      c = constructor opts /\ w_catchHandlers w = []
      /\ forall e, e ∈ w_trace w -> is_thrown e = true).

(** The actions by which request code schedules [calls], one after the
    other. *)
Definition schedule_acts (calls : list (JsValue * TaskCallerInfo * Ambient))
  : list Action :=
  map (fun c => CallAfter c.1.1 c.1.2 c.2) calls.

(** The in-flight callbacks settle one by one, each time the oldest, with
    the given outcomes. *)
Definition settle_acts (outcomes : list (option JsValue)) : list Action :=
  map (CallbackSettles 0) outcomes.

(** How many of the outcomes are failures. *)
Fixpoint failures (outcomes : list (option JsValue)) : nat :=
  match outcomes with
  | [] => 0
  | Some _ :: rest => S (failures rest)
  | None :: rest => failures rest
  end.

(** ** More concrete runs *)

Module SampleRuns.

Definition armed_acts : list Action :=
  [CallAfter (Sample.fn 1) (Sample.caller "a") (Sample.in_request 5);
   CallAfter (Sample.fn 2) (Sample.caller "b") (Sample.in_request 6)].

(** Two procedures scheduled and the response closed; the drain has not
    run yet. *)
Definition resolved_acts : list Action := armed_acts ++ [FireClose].

Definition resolved : World :=
  default (init_world Sample.opts Sample.heap)
    (Sample.run resolved_acts (init_world Sample.opts Sample.heap)).

(** The drain has started: both procedures are in flight. *)
Definition draining : World :=
  default resolved
    (Sample.run [ResumeCloseWait (Sample.in_request 5)] resolved).

(** Three calls of [after] on a coordinator without [waitUntil]. *)
Definition unconfigured_acts : list Action :=
  [CallAfter (Sample.fn 1) (Sample.caller "a") (Sample.in_request 5);
   CallAfter (Sample.promise 1) (Sample.caller "b") (Sample.in_request 5);
   CallAfter (VRef TyNumber 3) (Sample.caller "c") (Sample.in_request 5)].

Definition unconfigured : World :=
  default (init_world Sample.opts_no_waitUntil Sample.heap)
    (Sample.run unconfigured_acts
       (init_world Sample.opts_no_waitUntil Sample.heap)).

Definition calls : list (JsValue * TaskCallerInfo * Ambient) :=
  [(Sample.fn 1, Sample.caller "a", Sample.in_request 5);
   (Sample.fn 2, Sample.caller "b", Sample.in_request 6);
   (Sample.fn 3, Sample.caller "c", Sample.no_workStore)].

End SampleRuns.

(** * Properties *)

(** ** Unfolding the monad *)

Ltac unfold_monad :=
  unfold require_waitUntil, errorWaitUntilNotAvailable, call_waitUntil,
    console_error, emit, lift_outcome, try_catch, bindM, ret, throw, gets,
    modify in *.

Ltac unfold_methods :=
  unfold after, addCallback, runCallbacks, runCallbacksOnClose, queue_add,
    queue_start, task_catch, catchHandler, reportTaskError,
    call_onTaskError in *.

Lemma log_nil w : log [] w = w.
Proof. destruct w; unfold log; simpl. by rewrite app_nil_r. Qed.

(** ** The phase loop *)

Lemma flipPhases_spec (l : list StoreRef) (w : World) :
  flipPhases l w =
  (Ret tt,
   log (map (fun s => EvPhaseSet s PhaseAfter) l)
     (set_stores (flipped (w_stores w) l) w)).
Proof.
  revert w. induction l as [|s l IH]; intros w.
  - simpl. unfold ret, set_stores, flipped. simpl.
    rewrite log_nil. by destruct w.
  - simpl. unfold bindM, modify. rewrite IH.
    unfold log, set_stores, flipped. simpl.
    by rewrite <- app_assoc.
Qed.

Lemma flipped_elem (l : list StoreRef) (h : gmap StoreRef (option Phase))
    (s : StoreRef) :
  s ∈ l -> phase_of (flipped h l) s = Some PhaseAfter.
Proof.
  unfold flipped.
  induction l as [|x l IH] using rev_ind; intros Hin.
  - by apply elem_of_nil in Hin.
  - rewrite foldl_app. simpl. unfold phase_of.
    destruct (decide (x = s)) as [->|Hne].
    + by rewrite lookup_insert_eq.
    + rewrite lookup_insert_ne by done.
      apply IH. apply elem_of_app in Hin as [Hin|Hin]; [done|].
      apply list_elem_of_singleton in Hin. congruence.
Qed.


(** ** What [runCallbacks] does, case by case *)

Lemma runCallbacks_empty amb w :
  pq_size (callbackQueue (w_ctx w)) = 0 ->
  runCallbacks amb w = (Ret DrainNothing, w).
Proof.
  intros H. unfold_methods. unfold_monad. by rewrite H.
Qed.

Lemma runCallbacks_no_workStore amb w :
  pq_size (callbackQueue (w_ctx w)) <> 0 ->
  amb_workStore amb = None ->
  runCallbacks amb w =
  (Throw (VInvariantError msg_missing_workStore None),
   log (map (fun s => EvPhaseSet s PhaseAfter) (workUnitStores (w_ctx w)))
     (set_stores (flipped (w_stores w) (workUnitStores (w_ctx w))) w)).
Proof.
  intros Hsz Hws. unfold_methods. unfold_monad.
  destruct (Nat.eqb_spec (pq_size (callbackQueue (w_ctx w))) 0) as [|_];
    [done|].
  rewrite flipPhases_spec, Hws. reflexivity.
Qed.

Lemma runCallbacks_workStore amb w ws :
  pq_size (callbackQueue (w_ctx w)) <> 0 ->
  amb_workStore amb = Some ws ->
  let w1 := log (map (fun s => EvPhaseSet s PhaseAfter)
                   (workUnitStores (w_ctx w)))
              (set_stores (flipped (w_stores w) (workUnitStores (w_ctx w))) w) in
  runCallbacks amb w =
  (Ret (DrainAwaitIdle ws),
   log (EvQueueStart :: (pq_start (callbackQueue (w_ctx w))).2)
     (set_ctx (set_queue (pq_start (callbackQueue (w_ctx w))).1 (w_ctx w)) w1)).
Proof.
  intros Hsz Hws. unfold_methods. unfold_monad.
  destruct (Nat.eqb_spec (pq_size (callbackQueue (w_ctx w))) 0) as [|_];
    [done|].
  rewrite flipPhases_spec, Hws. simpl.
  by destruct (pq_start (callbackQueue (w_ctx w))).
Qed.

(** ** What the reporter does *)

Lemma reportTaskError_spec isError stitch taskKind error stackInfo w :
  reportTaskError isError stitch taskKind error stackInfo w =
  (Ret tt,
   log (report_events isError stitch taskKind error stackInfo
          (onTaskError (w_ctx w))) w).
Proof.
  unfold_methods. unfold_monad.
  unfold report_events, stitch_step, hook_step, task_failure_log,
    stitch_failure_log, hook_failure_log, log.
  destruct stackInfo as [info|]; [destruct (isError error)|]; simpl;
    [destruct (stitch error info) as [stitched|stitchError]; simpl| |];
    (destruct (onTaskError (w_ctx w)) as [h|]; simpl;
     [match goal with |- context [h ?e] => destruct (h e) as [[]|] end|];
     simpl; rewrite <- ?app_assoc; simpl; reflexivity).
Qed.

(** ** What [addCallback] does when [waitUntil] is there *)

Lemma addCallback_spec callback callerInfo amb w f :
  waitUntil (w_ctx w) = Some f ->
  let obs := match amb_workUnitStore amb with
             | Some s => Set_add s (workUnitStores (w_ctx w))
             | None => workUnitStores (w_ctx w)
             end in
  let spawnPhase := match amb_workUnitStore amb with
                    | Some s => phase_of (w_stores w) s
                    | None => None
                    end in
  let cb := {| wc_callback := callback;
               wc_store := buildStackInfo spawnPhase callerInfo
                             (amb_afterTaskStore amb);
               wc_snapshot := amb |} in
  let q := pq_add cb (callbackQueue (w_ctx w)) in
  let c1 := set_queue q.1 (set_workUnitStores obs (w_ctx w)) in
  addCallback callback callerInfo amb w =
  (Ret tt,
   match runCallbacksOnClosePromise (w_ctx w) with
   | Some _ => log q.2 (set_ctx c1 w)
   | None =>
       log (q.2 ++ [EvOnClose (onClose (w_ctx w)); EvWaitUntil f PCloseWait])
         (set_closeWait CWAwaitingClose
            (set_ctx (set_promise (Some PCloseWait) c1) w))
   end).
Proof.
  intros Hwu. unfold_methods. unfold_monad. rewrite Hwu.
  destruct w as [c h cw hs t]. simpl in *.
  destruct (amb_workUnitStore amb) as [s|]; simpl;
    match goal with |- context [pq_add ?x ?y] => destruct (pq_add x y) as [q' evs] end;
    simpl; destruct (runCallbacksOnClosePromise c); simpl;
    unfold log, set_ctx, set_closeWait; simpl;
    rewrite <- ?app_assoc; try reflexivity.
  all: destruct c; reflexivity.
Qed.

Lemma addCallback_no_waitUntil callback callerInfo amb w :
  waitUntil (w_ctx w) = None ->
  addCallback callback callerInfo amb w = (Throw (VError msg_waitUntil), w).
Proof. intros H. unfold_methods. unfold_monad. by rewrite H. Qed.

Lemma after_thenable_spec isThenable task callerInfo amb w f :
  isThenable task = true ->
  waitUntil (w_ctx w) = Some f ->
  after isThenable task callerInfo amb w =
  (Ret tt,
   log [EvCatchAttached task; EvWaitUntil f (PCatch (length (w_catchHandlers w)))]
     (set_catchHandlers (w_catchHandlers w ++ [(task, callerInfo)]) w)).
Proof.
  intros Ht Hwu. unfold_methods. unfold_monad. rewrite Ht, Hwu. simpl.
  unfold log. simpl. by rewrite <- app_assoc.
Qed.

(** ** Order in a trace *)

Lemma split_after_prefix (e : Event) (a b l1 l2 : list Event) :
  a ++ b = l1 ++ e :: l2 -> e ∉ a -> exists c, l1 = a ++ c.
Proof.
  revert l1. induction a as [|x a IH]; intros l1 Heq Hnot.
  - by exists l1.
  - destruct l1 as [|y l1]; simpl in Heq.
    + injection Heq as -> _. exfalso. apply Hnot. by left.
    + injection Heq as -> Heq.
      destruct (IH l1 Heq) as [c ->].
      * intros Hin. apply Hnot. by right.
      * by exists c.
Qed.

Lemma precedes_prefix (e1 e2 : Event) (a b : list Event) :
  e1 ∈ a -> e2 ∉ a -> precedes e1 e2 (a ++ b).
Proof.
  intros Hin Hnot l1 l2 Heq.
  destruct (split_after_prefix e2 a b l1 l2 Heq Hnot) as [c ->].
  apply elem_of_app. by left.
Qed.

Lemma precedes_absent (e1 e2 : Event) (t : list Event) :
  e2 ∉ t -> precedes e1 e2 t.
Proof.
  intros Hnot l1 l2 ->. exfalso. apply Hnot.
  apply elem_of_app. right. by left.
Qed.

Lemma precedes_app (e1 e2 : Event) (t evs : list Event) :
  precedes e1 e2 t -> (e2 ∈ evs -> e1 ∈ t) -> precedes e1 e2 (t ++ evs).
Proof.
  intros Hp Himp l1 l2 Heq.
  destruct (decide (length l1 < length t)) as [Hlt|Hge].
  - assert (Ht : t = l1 ++ e2 :: drop (S (length l1)) t).
    { apply (f_equal (take (length t))) in Heq.
      rewrite take_app_length in Heq.
      rewrite take_app_ge in Heq by lia.
      destruct (length t - length l1) as [|n] eqn:Hn; [lia|].
      simpl in Heq.
      assert (Hd : drop (S (length l1)) t = take n l2).
      { rewrite Heq at 1. rewrite drop_app_ge by (simpl; lia).
        replace (S (length l1) - length l1) with 1 by lia. reflexivity. }
      by rewrite Hd. }
    by apply (Hp _ _ Ht).
  - assert (Hpre : exists c, l1 = t ++ c).
    { exists (drop (length t) l1).
      apply (f_equal (take (length t))) in Heq.
      rewrite take_app_length in Heq.
      rewrite take_app_le in Heq by lia.
      rewrite Heq at 1. by rewrite take_drop. }
    destruct Hpre as [c ->].
    rewrite <- app_assoc in Heq. apply app_inv_head in Heq.
    apply elem_of_app. left. apply Himp.
    rewrite Heq. apply elem_of_app. right. by left.
Qed.

Lemma count_events_app p t1 t2 :
  count_events p (t1 ++ t2) = count_events p t1 + count_events p t2.
Proof. induction t1 as [|e t1 IH]; simpl; [done|]. rewrite IH. lia. Qed.

Lemma count_events_none p t :
  (forall e, e ∈ t -> p e = false) -> count_events p t = 0.
Proof.
  induction t as [|e t IH]; intros H; simpl; [done|].
  rewrite (H e) by (by left). rewrite IH; [done|].
  intros e' He'. apply H. by right.
Qed.

Lemma phase_event_elem (l : list StoreRef) (s : StoreRef) :
  s ∈ l -> EvPhaseSet s PhaseAfter ∈ map (fun s => EvPhaseSet s PhaseAfter) l.
Proof. intros H. by apply (list_elem_of_fmap_2 (fun s => EvPhaseSet s PhaseAfter)). Qed.

Lemma phase_events_only (l : list StoreRef) (e : Event) :
  e ∈ map (fun s => EvPhaseSet s PhaseAfter) l ->
  exists s, e = EvPhaseSet s PhaseAfter.
Proof.
  intros H. apply (list_elem_of_fmap_1 (fun s => EvPhaseSet s PhaseAfter)) in H.
  destruct H as (s & -> & _). by exists s.
Qed.

(** ** Synchronous errors of [after] *)

(** C2: for every task that is neither a thenable nor a function, [after]
    throws the usage error synchronously, and nothing of the world has
    changed when it does: in particular the callback queue, the set of
    observed work-unit stores and the close-wait arming (the promise field
    and the state of the close-wait task) are what they were. *)
Theorem after_malformed_task_throws (isThenable : JsValue -> bool)
    (task : JsValue) (callerInfo : TaskCallerInfo) (amb : Ambient) (w : World) :
  isThenable task = false ->
  typeof task <> TyFunction ->
  let r := after isThenable task callerInfo amb w in
  r.1 = Throw (VError msg_usage)
  /\ r.2 = w
  /\ callbackQueue (w_ctx r.2) = callbackQueue (w_ctx w)
  /\ workUnitStores (w_ctx r.2) = workUnitStores (w_ctx w)
  /\ runCallbacksOnClosePromise (w_ctx r.2) = runCallbacksOnClosePromise (w_ctx w)
  /\ w_closeWait r.2 = w_closeWait w.
Proof.
  intros Ht Hf. unfold after. rewrite Ht.
  destruct (decide (typeof task = TyFunction)) as [Heq|_]; [done|].
  unfold throw. simpl. repeat split.
Qed.

Lemma after_malformed_task_throws_witness :
  let r := after Sample.isThenable (VRef TyNumber 3) (Sample.caller "x")
             (Sample.in_request 5) Sample.armed in
  r.1 = Throw (VError msg_usage)
  /\ r.2 = Sample.armed
  /\ callbackQueue (w_ctx r.2) = callbackQueue (w_ctx Sample.armed)
  /\ workUnitStores (w_ctx r.2) = workUnitStores (w_ctx Sample.armed)
  /\ runCallbacksOnClosePromise (w_ctx r.2)
     = runCallbacksOnClosePromise (w_ctx Sample.armed)
  /\ w_closeWait r.2 = w_closeWait Sample.armed.
Proof.
  apply (after_malformed_task_throws Sample.isThenable (VRef TyNumber 3)).
  - reflexivity.
  - simpl. discriminate.
Defined.

(** C3: without [waitUntil], [after] with a thenable or with a function
    throws the configuration error synchronously and leaves the world as it
    was: no handler was attached to the task ([w_catchHandlers] and the
    trace are unchanged), nothing was added to the queue or to the set of
    observed stores. *)
Theorem after_without_waitUntil_throws (isThenable : JsValue -> bool)
    (task : JsValue) (callerInfo : TaskCallerInfo) (amb : Ambient) (w : World) :
  waitUntil (w_ctx w) = None ->
  isThenable task = true \/ typeof task = TyFunction ->
  let r := after isThenable task callerInfo amb w in
  r.1 = Throw (VError msg_waitUntil)
  /\ r.2 = w
  /\ w_catchHandlers r.2 = w_catchHandlers w
  /\ w_trace r.2 = w_trace w
  /\ callbackQueue (w_ctx r.2) = callbackQueue (w_ctx w)
  /\ workUnitStores (w_ctx r.2) = workUnitStores (w_ctx w).
Proof.
  intros Hwu Hvalid.
  assert (H : after isThenable task callerInfo amb w
              = (Throw (VError msg_waitUntil), w)).
  { unfold after. destruct (isThenable task) eqn:Ht.
    - unfold_monad. by rewrite Hwu.
    - destruct Hvalid as [|Hf]; [done|].
      destruct (decide (typeof task = TyFunction)); [|done].
      by apply addCallback_no_waitUntil. }
  rewrite H. simpl. repeat split.
Qed.

Lemma after_without_waitUntil_throws_witness :
  let w := init_world Sample.opts_no_waitUntil Sample.heap in
  let r := after Sample.isThenable (Sample.fn 1) (Sample.caller "x")
             (Sample.in_request 5) w in
  r.1 = Throw (VError msg_waitUntil)
  /\ r.2 = w
  /\ w_catchHandlers r.2 = w_catchHandlers w
  /\ w_trace r.2 = w_trace w
  /\ callbackQueue (w_ctx r.2) = callbackQueue (w_ctx w)
  /\ workUnitStores (w_ctx r.2) = workUnitStores (w_ctx w).
Proof.
  apply (after_without_waitUntil_throws Sample.isThenable (Sample.fn 1)).
  - reflexivity.
  - right. reflexivity.
Defined.

(** ** The drain *)

(** C4: when [runCallbacks] runs on a non-empty queue, every observed
    work-unit store gets its phase set to ['after'] before the queue is
    started and before any callback is launched: in the events of the call,
    each [EvQueueStart] and each [EvCallbackBegin] has the store's
    [EvPhaseSet] before it, the phase is still ['after'] when the call
    yields, and with a work store present the queue is indeed started. *)
Theorem drain_flips_phases_before_start (amb : Ambient) (w : World) :
  pq_size (callbackQueue (w_ctx w)) <> 0 ->
  let r := runCallbacks amb w in
  exists evs,
    w_trace r.2 = w_trace w ++ evs
    /\ (forall s, s ∈ workUnitStores (w_ctx w) ->
          precedes (EvPhaseSet s PhaseAfter) EvQueueStart evs
          /\ (forall cb, precedes (EvPhaseSet s PhaseAfter) (EvCallbackBegin cb) evs)
          /\ phase_of (w_stores r.2) s = Some PhaseAfter)
    /\ (forall ws, amb_workStore amb = Some ws ->
          EvQueueStart ∈ evs
          /\ isPaused (callbackQueue (w_ctx r.2)) = false).
Proof.
  intros Hsz r. subst r.
  set (obs := workUnitStores (w_ctx w)).
  set (flips := map (fun s => EvPhaseSet s PhaseAfter) obs).
  assert (Hno : forall e, (forall s, e <> EvPhaseSet s PhaseAfter) -> e ∉ flips).
  { intros e Hne Hin. apply phase_events_only in Hin as [s ->]. by eapply Hne. }
  destruct (amb_workStore amb) as [ws|] eqn:Hws.
  - rewrite (runCallbacks_workStore amb w ws Hsz Hws). simpl.
    exists (flips ++ EvQueueStart :: (pq_start (callbackQueue (w_ctx w))).2).
    split; [by rewrite <- app_assoc|]. split.
    + intros s Hs. split; [|split].
      * apply precedes_prefix; [by apply phase_event_elem|by apply Hno].
      * intros cb. apply precedes_prefix;
          [by apply phase_event_elem|by apply Hno].
      * by apply flipped_elem.
    + intros ws' _. split.
      * apply elem_of_app. right. by left.
      * unfold pq_start, pq_process.
        by destruct (isPaused (callbackQueue (w_ctx w))) eqn:Hp.
  - rewrite (runCallbacks_no_workStore amb w Hsz Hws). simpl.
    exists flips. split; [done|]. split.
    + intros s Hs. split; [|split].
      * apply precedes_absent. by apply Hno.
      * intros cb. apply precedes_absent. by apply Hno.
      * by apply flipped_elem.
    + intros ws' Habs. discriminate Habs.
Qed.

Lemma drain_flips_phases_before_start_witness :
  let w := set_closeWait CWResolved Sample.armed in
  let r := runCallbacks (Sample.in_request 5) w in
  exists evs,
    w_trace r.2 = w_trace w ++ evs
    /\ (forall s, s ∈ workUnitStores (w_ctx w) ->
          precedes (EvPhaseSet s PhaseAfter) EvQueueStart evs
          /\ (forall cb, precedes (EvPhaseSet s PhaseAfter) (EvCallbackBegin cb) evs)
          /\ phase_of (w_stores r.2) s = Some PhaseAfter)
    /\ (forall ws, amb_workStore (Sample.in_request 5) = Some ws ->
          EvQueueStart ∈ evs
          /\ isPaused (callbackQueue (w_ctx r.2)) = false).
Proof.
  apply (drain_flips_phases_before_start (Sample.in_request 5)
           (set_closeWait CWResolved Sample.armed)).
  vm_compute. discriminate.
Defined.

(** C7: when [runCallbacks] runs on a non-empty queue and no work store is
    ambient, it throws [InvariantError("Missing workStore ...")].  The error
    leaves the drain: the close-wait promise, the one given to [waitUntil],
    is rejected with it.  It does not go through the reporter: the call
    leaves no stitch, console or hook event.  It is neither the usage error
    nor the configuration error. *)
Theorem drain_missing_workStore_is_fatal (isThenable isError : JsValue -> bool)
    (stitch : JsValue -> AfterTaskStore -> Outcome JsValue)
    (amb : Ambient) (w : World) :
  pq_size (callbackQueue (w_ctx w)) <> 0 ->
  amb_workStore amb = None ->
  let fatal := VInvariantError msg_missing_workStore None in
  let r := runCallbacks amb w in
  r.1 = Throw fatal
  /\ (exists evs, w_trace r.2 = w_trace w ++ evs
                  /\ Forall (fun e => is_report_event e = false) evs)
  /\ (w_closeWait w = CWResolved ->
      exists w', step isThenable isError stitch (ResumeCloseWait amb) w = Some w'
                 /\ w_closeWait w' = CWRejected fatal
                 /\ w_trace w' = w_trace r.2)
  /\ fatal <> VError msg_usage
  /\ fatal <> VError msg_waitUntil.
Proof.
  intros Hsz Hws fatal r. subst r fatal.
  rewrite (runCallbacks_no_workStore amb w Hsz Hws). simpl.
  split; [done|]. split; [|split; [|by split]].
  - eexists. split; [done|].
    apply Forall_forall. intros e He.
    apply phase_events_only in He as [s ->]. done.
  - intros Hcw. unfold step. rewrite Hcw.
    rewrite (runCallbacks_no_workStore amb w Hsz Hws). by eexists.
Qed.

Lemma drain_missing_workStore_is_fatal_witness :
  let w := set_closeWait CWResolved Sample.armed in
  let fatal := VInvariantError msg_missing_workStore None in
  let r := runCallbacks Sample.no_workStore w in
  r.1 = Throw fatal
  /\ (exists evs, w_trace r.2 = w_trace w ++ evs
                  /\ Forall (fun e => is_report_event e = false) evs)
  /\ (w_closeWait w = CWResolved ->
      exists w', step Sample.isThenable Sample.isError
                   Sample.stitchAfterCallstack
                   (ResumeCloseWait Sample.no_workStore) w = Some w'
                 /\ w_closeWait w' = CWRejected fatal
                 /\ w_trace w' = w_trace r.2)
  /\ fatal <> VError msg_usage
  /\ fatal <> VError msg_waitUntil.
Proof.
  apply (drain_missing_workStore_is_fatal Sample.isThenable Sample.isError
           Sample.stitchAfterCallstack Sample.no_workStore
           (set_closeWait CWResolved Sample.armed)).
  - vm_compute. discriminate.
  - reflexivity.
Defined.

(** C10: when [runCallbacks] runs on a non-empty queue and no work store is
    ambient, the invariant error is thrown after the phase loop: in the
    world the error leaves behind, every observed work-unit store has phase
    ['after'] and its [EvPhaseSet] is among the events of the call.  The
    error path therefore does not preserve the state: as soon as one
    observed store was in another phase, the heap of stores, and so the
    world, differ from what they were; so it is not true that this error
    leaves the state as it was. *)
Theorem drain_throws_after_phase_flip (amb : Ambient) (w : World) :
  pq_size (callbackQueue (w_ctx w)) <> 0 ->
  amb_workStore amb = None ->
  let r := runCallbacks amb w in
  r.1 = Throw (VInvariantError msg_missing_workStore None)
  /\ (forall s, s ∈ workUnitStores (w_ctx w) ->
        phase_of (w_stores r.2) s = Some PhaseAfter
        /\ EvPhaseSet s PhaseAfter ∈ drop (length (w_trace w)) (w_trace r.2))
  /\ (forall s, s ∈ workUnitStores (w_ctx w) ->
        phase_of (w_stores w) s <> Some PhaseAfter ->
        w_stores r.2 <> w_stores w /\ r.2 <> w)
  /\ ~ (forall amb' w',
          pq_size (callbackQueue (w_ctx w')) <> 0 ->
          amb_workStore amb' = None ->
          (runCallbacks amb' w').2 = w').
Proof.
  intros Hsz Hws r. subst r.
  rewrite (runCallbacks_no_workStore amb w Hsz Hws). simpl.
  split; [done|]. split; [|split].
  - intros s Hs. split; [by apply flipped_elem|].
    rewrite drop_app_length. by apply phase_event_elem.
  - intros s Hs Hne.
    assert (Hst : flipped (w_stores w) (workUnitStores (w_ctx w)) <> w_stores w).
    { intros Heq. apply Hne. rewrite <- Heq. by apply flipped_elem. }
    split; [done|].
    intros Heq. apply Hst. apply (f_equal w_stores) in Heq. exact Heq.
  - intros Hall.
    assert (H : (runCallbacks Sample.no_workStore Sample.armed).2 = Sample.armed).
    { apply Hall; [vm_compute; discriminate|reflexivity]. }
    apply (f_equal (fun x => phase_of (w_stores x) 5)) in H.
    vm_compute in H. discriminate H.
Qed.

Lemma drain_throws_after_phase_flip_witness :
  let w := set_closeWait CWResolved Sample.armed in
  let r := runCallbacks Sample.no_workStore w in
  r.1 = Throw (VInvariantError msg_missing_workStore None)
  /\ (forall s, s ∈ workUnitStores (w_ctx w) ->
        phase_of (w_stores r.2) s = Some PhaseAfter
        /\ EvPhaseSet s PhaseAfter ∈ drop (length (w_trace w)) (w_trace r.2))
  /\ (forall s, s ∈ workUnitStores (w_ctx w) ->
        phase_of (w_stores w) s <> Some PhaseAfter ->
        w_stores r.2 <> w_stores w /\ r.2 <> w)
  /\ ~ (forall amb' w',
          pq_size (callbackQueue (w_ctx w')) <> 0 ->
          amb_workStore amb' = None ->
          (runCallbacks amb' w').2 = w').
Proof.
  apply (drain_throws_after_phase_flip Sample.no_workStore
           (set_closeWait CWResolved Sample.armed)).
  - vm_compute. discriminate.
  - reflexivity.
Defined.

(** ** The error reporter *)

(** C8: when [reportTaskError] gets a recognised error and a chain record
    and [stitchAfterCallstack] throws, it returns normally and leaves, in
    this order: the stitch attempt, a console line of its own for the
    stitch failure, the console line of the task kind with the original,
    unstitched error, and, when a hook is configured, the call of the hook
    with that same original error (followed by the line for the hook's own
    failure if it throws).  Nothing but the trace changes. *)
Theorem report_survives_stitch_failure (isError : JsValue -> bool)
    (stitch : JsValue -> AfterTaskStore -> Outcome JsValue)
    (taskKind : TaskKind) (error stitchError : JsValue)
    (info : AfterTaskStore) (w : World) :
  isError error = true ->
  stitch error info = Throw stitchError ->
  let r := reportTaskError isError stitch taskKind error (Some info) w in
  r.1 = Ret tt
  /\ r.2 = log ([EvStitch error info;
                 stitch_failure_log stitchError;
                 task_failure_log taskKind error]
                ++ hook_step (onTaskError (w_ctx w)) error) w
  /\ (forall h, onTaskError (w_ctx w) = Some h ->
        EvOnTaskError error ∈ drop (length (w_trace w)) (w_trace r.2)).
Proof.
  intros He Hs r. subst r. rewrite reportTaskError_spec. simpl.
  unfold report_events, stitch_step. rewrite He, Hs. simpl.
  split; [done|]. split; [done|].
  intros h Hh. rewrite drop_app_length, Hh. simpl.
  do 3 right. by left.
Qed.

Lemma report_survives_stitch_failure_witness :
  let w := init_world Sample.opts Sample.heap in
  let info := buildStackInfo None (Sample.caller "x") None in
  let r := reportTaskError Sample.isError Sample.stitchAfterCallstack
             KindFunction (VError "opaque") (Some info) w in
  r.1 = Ret tt
  /\ r.2 = log ([EvStitch (VError "opaque") info;
                 stitch_failure_log (VRef TyString 0);
                 task_failure_log KindFunction (VError "opaque")]
                ++ hook_step (onTaskError (w_ctx w)) (VError "opaque")) w
  /\ (forall h, onTaskError (w_ctx w) = Some h ->
        EvOnTaskError (VError "opaque") ∈ drop (length (w_trace w)) (w_trace r.2)).
Proof.
  apply (report_survives_stitch_failure Sample.isError
           Sample.stitchAfterCallstack KindFunction (VError "opaque")
           (VRef TyString 0)).
  - reflexivity.
  - reflexivity.
Defined.

Lemma stitch_step_events isError stitch error stackInfo :
  Forall (fun e => is_stitch_step_event e = true)
    (stitch_step isError stitch error stackInfo).1
  /\ length (stitch_step isError stitch error stackInfo).1 <= 2.
Proof.
  unfold stitch_step.
  destruct stackInfo as [info|]; [destruct (isError error)|]; simpl;
    [destruct (stitch error info); simpl| |];
    split; simpl; try lia; repeat constructor.
Qed.

(** C9: with a hook configured, [reportTaskError] always returns normally,
    whatever the hook does.  The events of the call are those of the
    stitching step, then the console line of the task kind, then the call
    of the hook, and, if the hook throws, one console line for the hook's
    failure and nothing after it: no further stitch attempt, task line or
    hook call.  Nothing but the trace changes. *)
Theorem report_contains_hook_failure (isError : JsValue -> bool)
    (stitch : JsValue -> AfterTaskStore -> Outcome JsValue)
    (taskKind : TaskKind) (error : JsValue)
    (stackInfo : option AfterTaskStore) (w : World)
    (h : JsValue -> Outcome unit) :
  onTaskError (w_ctx w) = Some h ->
  let r := reportTaskError isError stitch taskKind error stackInfo w in
  r.1 = Ret tt
  /\ exists evs error',
       Forall (fun e => is_stitch_step_event e = true) evs
       /\ length evs <= 2
       /\ r.2 = log (evs ++ [task_failure_log taskKind error';
                             EvOnTaskError error']
                         ++ match h error' with
                            | Ret _ => []
                            | Throw handlerError =>
                                [hook_failure_log handlerError]
                            end) w.
Proof.
  intros Hh r. subst r. rewrite reportTaskError_spec. simpl.
  split; [done|].
  unfold report_events. rewrite Hh.
  pose proof (stitch_step_events isError stitch error stackInfo) as [Hev Hlen].
  destruct (stitch_step isError stitch error stackInfo) as [evs error'].
  exists evs, error'. split; [exact Hev|]. split; [exact Hlen|].
  simpl. reflexivity.
Qed.

Lemma report_contains_hook_failure_witness :
  let w := init_world Sample.opts Sample.heap in
  let r := reportTaskError Sample.isError Sample.stitchAfterCallstack
             KindPromise (VError "boom") None w in
  r.1 = Ret tt
  /\ exists evs error',
       Forall (fun e => is_stitch_step_event e = true) evs
       /\ length evs <= 2
       /\ r.2 = log (evs ++ [task_failure_log KindPromise error';
                             EvOnTaskError error']
                         ++ match Sample.throwingHook error' with
                            | Ret _ => []
                            | Throw handlerError =>
                                [hook_failure_log handlerError]
                            end) w.
Proof.
  apply (report_contains_hook_failure Sample.isError
           Sample.stitchAfterCallstack KindPromise (VError "boom") None
           (init_world Sample.opts Sample.heap) Sample.throwingHook).
  reflexivity.
Defined.

(** ** The caller chain *)

Lemma last_added_pq_add cb q : last_added (pq_add cb q).1 = Some cb.
Proof.
  unfold last_added, pq_add, pq_process. simpl.
  destruct (isPaused q); simpl.
  - by rewrite app_assoc, last_snoc.
  - by rewrite app_nil_r, app_assoc, last_snoc.
Qed.

Lemma buildStackInfo_extends spawnPhase callerInfo outer :
  extends_chain callerInfo outer (buildStackInfo spawnPhase callerInfo outer).
Proof. destruct outer; simpl; repeat split. Qed.

(** What one call of [addCallback] leaves for the next call of a chain. *)
Lemma addCallback_chain_step callback callerInfo amb w f :
  waitUntil (w_ctx w) = Some f ->
  let w1 := (addCallback callback callerInfo amb w).2 in
  waitUntil (w_ctx w1) = Some f
  /\ w_stores w1 = w_stores w
  /\ last_added (callbackQueue (w_ctx w1))
     = Some {| wc_callback := callback;
               wc_store :=
                 buildStackInfo
                   match amb_workUnitStore amb with
                   | Some s => phase_of (w_stores w) s
                   | None => None
                   end callerInfo (amb_afterTaskStore amb);
               wc_snapshot := amb |}.
Proof.
  intros Hwu w1. subst w1.
  rewrite (addCallback_spec callback callerInfo amb w f Hwu).
  destruct (runCallbacksOnClosePromise (w_ctx w)); simpl;
    (split; [done|]); (split; [done|]); apply last_added_pq_add.
Qed.

Lemma scheduleNested_under (calls : list (JsValue * TaskCallerInfo * option StoreRef))
    (o : AfterTaskStore) (w : World) (f : HostFn) :
  waitUntil (w_ctx w) = Some f ->
  exists r,
    (scheduleNested calls (Some o) w).1 = Some r
    /\ rootTaskSpawnPhase r = rootTaskSpawnPhase o
    /\ rootTaskCallerStack r = rootTaskCallerStack o
    /\ rootTaskReactOwnerStack r = rootTaskReactOwnerStack o
    /\ nestedTaskCallerStacks r
       = match calls with
         | [] => nestedTaskCallerStacks o
         | _ => Some (rev (map (fun c => callerStack c.1.2) calls)
                        ++ default [] (nestedTaskCallerStacks o))
         end.
Proof.
  revert o w. induction calls as [|[[callback callerInfo] s] rest IH];
    intros o w Hwu.
  - exists o. simpl. repeat split.
  - simpl.
    set (amb := {| amb_workUnitStore := s; amb_afterTaskStore := Some o;
                   amb_workStore := None |}).
    destruct (addCallback_chain_step callback callerInfo amb w f Hwu)
      as (Hwu1 & _ & Hlast).
    rewrite Hlast. simpl.
    destruct (IH (buildStackInfo (from_option (phase_of (w_stores w)) None s)
                    callerInfo (Some o)) _ Hwu1)
      as (r & Hr & Hp & Hc & Ho & Hn).
    exists r. split; [exact Hr|].
    simpl in Hp, Hc, Ho, Hn.
    split; [done|]. split; [done|]. split; [done|].
    rewrite Hn. destruct rest as [|c rest]; simpl; [done|].
    f_equal. rewrite <- !app_assoc. reflexivity.
Qed.

(** C5: the record a scheduling call builds.  A call of [addCallback] with
    no ambient after-task store queues a callback whose record has no
    nested sequence and the caller's stacks as root fields; a call made
    under a store queues a callback whose record copies that store's three
    root fields and has the new caller stack in front of the store's nested
    sequence.  The handler [after] attaches to a thenable builds its record
    the same way.  Along a chain of nested calls started by a root call,
    the record at any depth has the root call's spawn phase, caller stack
    and owner stack, and its nested sequence lists the caller stacks of the
    nested calls, the most recent first. *)
Theorem nested_schedule_builds_chain (isError : JsValue -> bool)
    (stitch : JsValue -> AfterTaskStore -> Outcome JsValue)
    (callback : JsValue) (callerInfo : TaskCallerInfo) (amb : Ambient)
    (s : option StoreRef)
    (calls : list (JsValue * TaskCallerInfo * option StoreRef))
    (error : JsValue) (w : World) (f : HostFn) :
  waitUntil (w_ctx w) = Some f ->
  (exists cb,
     last_added (callbackQueue (w_ctx (addCallback callback callerInfo amb w).2))
     = Some cb
     /\ wc_callback cb = callback
     /\ extends_chain callerInfo (amb_afterTaskStore amb) (wc_store cb))
  /\ (exists info,
        catchHandler isError stitch callerInfo error amb w
        = reportTaskError isError stitch KindPromise error (Some info) w
        /\ extends_chain callerInfo (amb_afterTaskStore amb) info)
  /\ (exists r,
        (scheduleNested ((callback, callerInfo, s) :: calls) None w).1 = Some r
        /\ rootTaskSpawnPhase r
           = match s with
             | Some s => phase_of (w_stores w) s
             | None => None
             end
        /\ rootTaskCallerStack r = callerStack callerInfo
        /\ rootTaskReactOwnerStack r = reactOwnerStack callerInfo
        /\ nestedTaskCallerStacks r
           = match calls with
             | [] => None
             | _ => Some (rev (map (fun c => callerStack c.1.2) calls))
             end).
Proof.
  intros Hwu. split; [|split].
  - destruct (addCallback_chain_step callback callerInfo amb w f Hwu)
      as (_ & _ & Hlast).
    eexists. split; [exact Hlast|]. split; [done|].
    apply buildStackInfo_extends.
  - eexists. split; [reflexivity|]. apply buildStackInfo_extends.
  - simpl.
    set (amb0 := {| amb_workUnitStore := s; amb_afterTaskStore := None;
                    amb_workStore := None |}).
    destruct (addCallback_chain_step callback callerInfo amb0 w f Hwu)
      as (Hwu1 & _ & Hlast).
    rewrite Hlast. simpl.
    destruct (scheduleNested_under calls
                (buildStackInfo
                   match s with
                   | Some s0 => phase_of (w_stores w) s0
                   | None => None
                   end callerInfo None) _ f Hwu1)
      as (r & Hr & Hp & Hc & Ho & Hn).
    exists r. split; [exact Hr|]. simpl in Hp, Hc, Ho, Hn.
    split; [done|]. split; [done|]. split; [done|].
    rewrite Hn. destruct calls; simpl; [done|].
    by rewrite app_nil_r.
Qed.

Lemma nested_schedule_builds_chain_witness :
  let w := init_world Sample.opts Sample.heap in
  let callerInfo := Sample.caller "root" in
  let amb := Sample.in_request 5 in
  let calls := [(Sample.fn 2, Sample.caller "inner", Some 6);
                (Sample.fn 3, Sample.caller "innermost", None)] in
  (exists cb,
     last_added (callbackQueue (w_ctx (addCallback (Sample.fn 1) callerInfo amb w).2))
     = Some cb
     /\ wc_callback cb = Sample.fn 1
     /\ extends_chain callerInfo (amb_afterTaskStore amb) (wc_store cb))
  /\ (exists info,
        catchHandler Sample.isError Sample.stitchAfterCallstack callerInfo
          (VError "boom") amb w
        = reportTaskError Sample.isError Sample.stitchAfterCallstack
            KindPromise (VError "boom") (Some info) w
        /\ extends_chain callerInfo (amb_afterTaskStore amb) info)
  /\ (exists r,
        (scheduleNested ((Sample.fn 1, callerInfo, Some 5) :: calls) None w).1
        = Some r
        /\ rootTaskSpawnPhase r = phase_of (w_stores w) 5
        /\ rootTaskCallerStack r = callerStack callerInfo
        /\ rootTaskReactOwnerStack r = reactOwnerStack callerInfo
        /\ nestedTaskCallerStacks r
           = Some (rev (map (fun c => callerStack c.1.2) calls))).
Proof.
  apply (nested_schedule_builds_chain Sample.isError
           Sample.stitchAfterCallstack (Sample.fn 1) (Sample.caller "root")
           (Sample.in_request 5) (Some 5)
           [(Sample.fn 2, Sample.caller "inner", Some 6);
            (Sample.fn 3, Sample.caller "innermost", None)]
           (VError "boom") (init_world Sample.opts Sample.heap) 1).
  reflexivity.
Defined.

(** ** The effect of one action *)

Lemma report_events_are_reports isError stitch taskKind error stackInfo hook e :
  e ∈ report_events isError stitch taskKind error stackInfo hook ->
  is_report_event e = true.
Proof.
  unfold report_events, stitch_step, hook_step.
  destruct stackInfo as [info|]; [destruct (isError error)|]; simpl;
    [destruct (stitch error info); simpl| |];
    (destruct hook as [h|]; simpl;
     [match goal with |- context [h ?x] => destruct (h x) as [[]|] end|]);
    intros He;
    repeat (apply elem_of_cons in He as [->|He]; [reflexivity|]);
    by apply elem_of_nil in He.
Qed.

Lemma step_effect_quiet (w w' : World) (evs : list Event) :
  w_trace w' = w_trace w ++ evs ->
  isPaused (callbackQueue (w_ctx w')) = isPaused (callbackQueue (w_ctx w)) ->
  (pq_pending (callbackQueue (w_ctx w)) = [] ->
   pq_pending (callbackQueue (w_ctx w')) = []) ->
  (w_closeWait w' = CWResolved -> w_closeWait w = CWResolved) ->
  runCallbacksOnClosePromise (w_ctx w') = runCallbacksOnClosePromise (w_ctx w) ->
  (w_closeWait w = CWUnarmed ->
   pq_pending (callbackQueue (w_ctx w)) = [] ->
   callbackQueue (w_ctx w') = callbackQueue (w_ctx w)
   /\ w_closeWait w' = CWUnarmed) ->
  (forall e, e ∈ evs ->
     launches e = false /\ is_onClose e = false
     /\ is_waitUntil_closeWait e = false) ->
  step_effect w w' evs.
Proof.
  intros Ht Hp Hpend Hcw Hpr Hun Hq. unfold step_effect.
  split; [exact Ht|]. split.
  { intros e He Hl. destruct (Hq e He) as (Hl' & _). congruence. }
  split. { intros H. left. congruence. }
  split. { intros H. congruence. }
  split. { intros H. left. by apply Hcw. }
  split. { intros _. exact Hpend. }
  split. { intros _. exact Hun. }
  assert (H1 : count_events is_onClose evs = 0).
  { apply count_events_none. intros e He. by destruct (Hq e He) as (_ & ? & _). }
  assert (H2 : count_events is_waitUntil_closeWait evs = 0).
  { apply count_events_none. intros e He. by destruct (Hq e He) as (_ & _ & ?). }
  rewrite Hpr. destruct (runCallbacksOnClosePromise (w_ctx w)); [done|].
  by left.
Qed.

Lemma step_effect_throw (e : JsValue) (w : World) :
  step_effect w (log [EvThrown e] w) [EvThrown e].
Proof.
  apply step_effect_quiet; try done.
  intros e' He. apply list_elem_of_singleton in He as ->. done.
Qed.

Lemma step_effect_report isError stitch taskKind error stackInfo (w0 w : World) :
  w_trace w = w_trace w0 ->
  isPaused (callbackQueue (w_ctx w)) = isPaused (callbackQueue (w_ctx w0)) ->
  (pq_pending (callbackQueue (w_ctx w0)) = [] ->
   pq_pending (callbackQueue (w_ctx w)) = []) ->
  w_closeWait w = w_closeWait w0 ->
  runCallbacksOnClosePromise (w_ctx w) = runCallbacksOnClosePromise (w_ctx w0) ->
  (pq_pending (callbackQueue (w_ctx w0)) = [] ->
   callbackQueue (w_ctx w) = callbackQueue (w_ctx w0)) ->
  step_effect w0
    (run_sync (reportTaskError isError stitch taskKind error stackInfo) w)
    (report_events isError stitch taskKind error stackInfo
       (onTaskError (w_ctx w))).
Proof.
  intros Ht Hp Hpend Hcw Hpr Hsame.
  unfold run_sync. rewrite reportTaskError_spec.
  apply step_effect_quiet; simpl; try done.
  - by rewrite Ht.
  - intros H. congruence.
  - intros H1 H2. split; [by apply Hsame|congruence].
  - intros e He. apply report_events_are_reports in He.
    destruct e; try discriminate He; done.
Qed.

Lemma pq_add_effect cb q :
  isPaused (pq_add cb q).1 = isPaused q
  /\ (isPaused q = true -> (pq_add cb q).2 = []
                           /\ pq_pending (pq_add cb q).1 = pq_pending q)
  /\ (forall e, e ∈ (pq_add cb q).2 ->
        isPaused q = false /\ is_onClose e = false
        /\ is_waitUntil_closeWait e = false).
Proof.
  unfold pq_add, pq_process. simpl.
  destruct (isPaused q) eqn:Hp; simpl.
  - split; [done|]. split; [done|]. intros e He. by apply elem_of_nil in He.
  - split; [done|]. split; [done|]. intros e He.
    apply (list_elem_of_fmap_1 EvCallbackBegin) in He as (x & -> & _). done.
Qed.

Lemma step_effect_addCallback callback callerInfo amb w f :
  waitUntil (w_ctx w) = Some f ->
  exists evs,
    step_effect w (run_sync (addCallback callback callerInfo amb) w) evs.
Proof.
  intros Hwu. unfold run_sync.
  rewrite (addCallback_spec callback callerInfo amb w f Hwu).
  match goal with |- context [pq_add ?c ?q] =>
    pose proof (pq_add_effect c q) as (Hp & Hpaused & Hevs);
    set (a := pq_add c q) in *
  end.
  destruct (runCallbacksOnClosePromise (w_ctx w)) as [p|] eqn:Hpr.
  - exists a.2. unfold step_effect. simpl. rewrite Hpr.
    split; [done|]. split.
    { intros e He _. left. by destruct (Hevs e He). }
    split. { intros H. left. congruence. }
    split. { intros H. congruence. }
    split. { intros H. by left. }
    split. { intros H Hpend. rewrite Hp in H.
             destruct (Hpaused H) as [_ ->]. exact Hpend. }
    split. { intros H. discriminate H. }
    split; [done|].
    split; apply count_events_none; intros e He;
      by destruct (Hevs e He) as (_ & ? & ?).
  - exists (a.2 ++ [EvOnClose (onClose (w_ctx w)); EvWaitUntil f PCloseWait]).
    unfold step_effect. simpl. rewrite Hpr.
    split; [done|]. split.
    { intros e He Hl. left. apply elem_of_app in He as [He|He].
      - by destruct (Hevs e He).
      - repeat (apply elem_of_cons in He as [->|He]; [discriminate Hl|]).
        by apply elem_of_nil in He. }
    split. { intros H. left. congruence. }
    split. { intros H. congruence. }
    split. { intros H. discriminate H. }
    split. { intros H Hpend. rewrite Hp in H.
             destruct (Hpaused H) as [_ ->]. exact Hpend. }
    split. { intros H. discriminate H. }
    right. split; [done|].
    rewrite !count_events_app. simpl.
    split.
    + rewrite (count_events_none is_onClose a.2); [done|].
      intros e He. by destruct (Hevs e He) as (_ & ? & ?).
    + rewrite (count_events_none is_waitUntil_closeWait a.2); [done|].
      intros e He. by destruct (Hevs e He) as (_ & ? & ?).
Qed.

Lemma step_effect_after isThenable task callerInfo amb w :
  exists evs,
    step_effect w (run_sync (after isThenable task callerInfo amb) w) evs.
Proof.
  destruct (waitUntil (w_ctx w)) as [f|] eqn:Hwu.
  - destruct (isThenable task) eqn:Ht.
    + unfold run_sync.
      rewrite (after_thenable_spec isThenable task callerInfo amb w f Ht Hwu).
      eexists. apply step_effect_quiet; simpl; try done.
      intros e He.
      repeat (apply elem_of_cons in He as [->|He]; [done|]).
      by apply elem_of_nil in He.
    + unfold run_sync, after. rewrite Ht.
      destruct (decide (typeof task = TyFunction)).
      * by apply (step_effect_addCallback task callerInfo amb w f).
      * unfold throw. eexists. apply step_effect_throw.
  - assert (H : exists e, after isThenable task callerInfo amb w = (Throw e, w)).
    { unfold after. destruct (isThenable task).
      - unfold_monad. rewrite Hwu. by eexists.
      - destruct (decide (typeof task = TyFunction)).
        + rewrite addCallback_no_waitUntil by done. by eexists.
        + by eexists. }
    destruct H as [e He]. unfold run_sync. rewrite He.
    eexists. apply step_effect_throw.
Qed.

Lemma pq_start_effect q :
  isPaused (pq_start q).1 = false
  /\ (forall e, e ∈ (pq_start q).2 ->
        is_onClose e = false /\ is_waitUntil_closeWait e = false).
Proof.
  unfold pq_start, pq_process.
  destruct (isPaused q) eqn:Hp; simpl.
  - split; [done|]. intros e He.
    apply (list_elem_of_fmap_1 EvCallbackBegin) in He as (x & -> & _). done.
  - split; [done|]. intros e He. by apply elem_of_nil in He.
Qed.

Lemma step_effect_resume isThenable isError stitch amb w w' :
  step isThenable isError stitch (ResumeCloseWait amb) w = Some w' ->
  exists evs, step_effect w w' evs.
Proof.
  unfold step. destruct (w_closeWait w) eqn:Hcw; try discriminate.
  intros Hstep. injection Hstep as <-.
  destruct (decide (pq_size (callbackQueue (w_ctx w)) = 0)) as [Hz|Hnz].
  - rewrite (runCallbacks_empty amb w Hz).
    exists []. apply step_effect_quiet; simpl; try done;
      try (intros; congruence).
    + by rewrite app_nil_r.
    + intros ev Hev. by apply elem_of_nil in Hev.
  - destruct (amb_workStore amb) as [ws|] eqn:Hws.
    + rewrite (runCallbacks_workStore amb w ws Hnz Hws).
      destruct (pq_start_effect (callbackQueue (w_ctx w))) as [Hp Hevs].
      eexists. unfold step_effect. simpl.
      split; [by rewrite <- app_assoc|].
      split. { intros ev Hev Hl. by right. }
      split. { intros _. by right. }
      split. { intros _. exact Hp. }
      split. { intros H. discriminate H. }
      split. { intros H. congruence. }
      split. { intros _ H. congruence. }
      assert (Hc : forall p, (forall ev, ev ∈ (pq_start (callbackQueue (w_ctx w))).2
                                   -> p ev = false) ->
                        p EvQueueStart = false ->
                        (forall s, p (EvPhaseSet s PhaseAfter) = false) ->
                count_events p
                  (map (fun s => EvPhaseSet s PhaseAfter) (workUnitStores (w_ctx w))
                   ++ EvQueueStart :: (pq_start (callbackQueue (w_ctx w))).2) = 0).
      { intros p H1 H2 H3. apply count_events_none. intros ev Hev.
        apply elem_of_app in Hev as [Hev|Hev].
        - apply phase_events_only in Hev as [s ->]. apply H3.
        - apply elem_of_cons in Hev as [->|Hev]; [done|]. by apply H1. }
      destruct (runCallbacksOnClosePromise (w_ctx w)); [split; [done|]|left; split; [done|]];
        (split; apply Hc; try done; intros ev Hev; by destruct (Hevs ev Hev)).
    + rewrite (runCallbacks_no_workStore amb w Hnz Hws).
      eexists. apply step_effect_quiet; simpl; try done;
      try (intros; congruence).
      intros ev Hev. apply phase_events_only in Hev as [s ->]. done.
Qed.

Lemma step_effect_step isThenable isError stitch a w w' :
  step isThenable isError stitch a w = Some w' ->
  exists evs, step_effect w w' evs.
Proof.
  destruct a as [task callerInfo amb| |amb|k error amb|i failure|].
  - simpl. intros H. injection H as <-. apply step_effect_after.
  - simpl. intros H.
    exists [EvCloseFired].
    destruct (w_closeWait w) eqn:Hcw; try discriminate H;
      injection H as <-.
    2-5: apply step_effect_quiet; simpl; try done;
         try (intros; congruence);
         intros ev Hev; apply list_elem_of_singleton in Hev as ->; done.
    unfold step_effect. simpl.
    split; [done|]. split.
    { intros ev Hev Hl. apply list_elem_of_singleton in Hev as ->. discriminate Hl. }
    split. { intros H. by left. }
    split. { intros H. exact H. }
    split. { intros _. right. by left. }
    split. { intros _ H. exact H. }
    split. { intros _ H. congruence. }
    destruct (runCallbacksOnClosePromise (w_ctx w)); [done|by left].
  - apply step_effect_resume.
  - simpl. destruct (w_catchHandlers w !! k) as [[task callerInfo]|];
      [|discriminate].
    intros H. injection H as <-. eexists.
    unfold catchHandler. by apply step_effect_report.
  - simpl.
    destruct (pq_pending (callbackQueue (w_ctx w)) !! i) as [cb|] eqn:Hi;
      [|discriminate].
    intros H. injection H as <-.
    destruct failure as [error|].
    + eexists. apply step_effect_report; simpl; try done;
        intros Hnil; rewrite Hnil in Hi; discriminate Hi.
    + exists []. apply step_effect_quiet; simpl; try done;
      try (intros; congruence).
      * by rewrite app_nil_r.
      * intros Hnil. rewrite Hnil in Hi. discriminate Hi.
      * intros _ Hnil. rewrite Hnil in Hi. discriminate Hi.
      * intros ev Hev. by apply elem_of_nil in Hev.
  - simpl. destruct (w_closeWait w) eqn:Hcw; try discriminate.
    destruct (pq_idle (callbackQueue (w_ctx w))); [|discriminate].
    intros H. injection H as <-.
    eexists. apply step_effect_quiet; simpl; try done;
      try (intros; congruence).
    intros ev Hev. apply list_elem_of_singleton in Hev as ->. done.
Qed.

(** ** Invariants of the reachable worlds *)

Lemma close_invariant_init opts h : close_invariant (init_world opts h).
Proof.
  unfold close_invariant. simpl.
  split; [discriminate|]. split; [discriminate|]. split; [done|].
  intros e _. apply precedes_absent. apply not_elem_of_nil.
Qed.

Lemma close_invariant_step w w' evs :
  close_invariant w -> step_effect w w' evs -> close_invariant w'.
Proof.
  intros (I1 & I2 & I3 & I4) (Ht & Hl & Hp & Hmono & Hcw & Hpend & _).
  assert (Hclose : isPaused (callbackQueue (w_ctx w)) = false
                   \/ w_closeWait w = CWResolved ->
                   EvCloseFired ∈ w_trace w).
  { intros [H|H]; [by apply I1|by apply I2]. }
  unfold close_invariant. rewrite Ht.
  split. { intros H. apply elem_of_app. left. by apply Hclose, Hp. }
  split. { intros H. apply elem_of_app.
           destruct (Hcw H) as [H'|H']; [left; by apply I2|by right]. }
  split.
  { intros H. apply Hpend; [exact H|]. apply I3.
    destruct (isPaused (callbackQueue (w_ctx w))) eqn:E; [done|].
    rewrite Hmono in H by done. discriminate H. }
  intros e He. apply precedes_app; [by apply I4|].
  intros Hin. apply Hclose. by apply (Hl e).
Qed.

Lemma arming_invariant_init opts h : arming_invariant (init_world opts h).
Proof. unfold arming_invariant. simpl. done. Qed.

Lemma arming_invariant_step w w' evs :
  arming_invariant w -> step_effect w w' evs -> arming_invariant w'.
Proof.
  unfold arming_invariant.
  intros Hinv (Ht & _ & _ & _ & _ & _ & Hun & Harm).
  rewrite Ht, !count_events_app.
  destruct (runCallbacksOnClosePromise (w_ctx w)) as [p|].
  - destruct Hinv as (-> & H1 & H2). destruct Harm as (-> & -> & ->).
    split; [done|]. lia.
  - destruct Hinv as (Hq & Hcw & H1 & H2).
    destruct Harm as [(Hn & -> & ->)|(-> & -> & ->)].
    + rewrite Hn.
      destruct (Hun Hn Hcw) as [Hq' Hcw']; [by rewrite Hq|].
      rewrite Hq', Hq, H1, H2. done.
    + split; [done|]. lia.
Qed.

Lemma exec_invariant isThenable isError stitch (P : World -> Prop) :
  (forall w w' evs, P w -> step_effect w w' evs -> P w') ->
  forall acts w w',
    P w -> exec isThenable isError stitch acts w = Some w' -> P w'.
Proof.
  intros Hstep acts. induction acts as [|a acts IH]; intros w w' HP Hexec.
  - simpl in Hexec. by injection Hexec as <-.
  - simpl in Hexec.
    destruct (step isThenable isError stitch a w) as [w1|] eqn:Hs;
      [|discriminate].
    destruct (step_effect_step _ _ _ _ _ _ Hs) as [evs Heff].
    apply (IH w1 w'); [|done]. by apply (Hstep w w1 evs).
Qed.

(** ** The close notification *)

(** C1: the queue is constructed paused, and in every run of the
    coordinator, whatever is scheduled and however often, each launch of a
    wrapped callback and each start of the queue comes after the close
    thunk was invoked.  As long as the thunk has not been invoked the queue
    is paused, nothing is in flight, and the trace holds no launch. *)
Theorem callbacks_begin_after_close (isThenable isError : JsValue -> bool)
    (stitch : JsValue -> AfterTaskStore -> Outcome JsValue)
    (opts : AfterContextOpts) (h : gmap StoreRef (option Phase))
    (acts : list Action) (w : World) :
  exec isThenable isError stitch acts (init_world opts h) = Some w ->
  isPaused (callbackQueue (constructor opts)) = true
  /\ precedes EvCloseFired EvQueueStart (w_trace w)
  /\ (forall cb, precedes EvCloseFired (EvCallbackBegin cb) (w_trace w))
  /\ (EvCloseFired ∉ w_trace w ->
      isPaused (callbackQueue (w_ctx w)) = true
      /\ pq_pending (callbackQueue (w_ctx w)) = []
      /\ forall e, e ∈ w_trace w -> launches e = false).
Proof.
  intros Hexec.
  assert (Hinv : close_invariant w).
  { apply (exec_invariant isThenable isError stitch close_invariant
             close_invariant_step acts (init_world opts h) w);
      [apply close_invariant_init|exact Hexec]. }
  destruct Hinv as (I1 & I2 & I3 & I4).
  split; [reflexivity|]. split; [by apply I4|]. split; [intros cb; by apply I4|].
  intros Hno.
  assert (Hp : isPaused (callbackQueue (w_ctx w)) = true).
  { destruct (isPaused (callbackQueue (w_ctx w))) eqn:E; [done|].
    exfalso. by apply Hno, I1. }
  split; [exact Hp|]. split; [by apply I3|].
  intros e He. destruct (launches e) eqn:Hl; [|done].
  exfalso. apply Hno.
  apply list_elem_of_split in He as (l1 & l2 & Heq).
  rewrite Heq. apply elem_of_app. left. by apply (I4 e Hl l1 l2).
Qed.

Lemma callbacks_begin_after_close_witness :
  let w := Sample.closed in
  isPaused (callbackQueue (constructor Sample.opts)) = true
  /\ precedes EvCloseFired EvQueueStart (w_trace w)
  /\ (forall cb, precedes EvCloseFired (EvCallbackBegin cb) (w_trace w))
  /\ (EvCloseFired ∉ w_trace w ->
      isPaused (callbackQueue (w_ctx w)) = true
      /\ pq_pending (callbackQueue (w_ctx w)) = []
      /\ forall e, e ∈ w_trace w -> launches e = false).
Proof.
  apply (callbacks_begin_after_close Sample.isThenable Sample.isError
           Sample.stitchAfterCallstack Sample.opts Sample.heap
           Sample.closed_acts Sample.closed).
  vm_compute. reflexivity.
Defined.

(** C6: per coordinator, the close-wait task is created and handed to
    [waitUntil] exactly once.  In every run, [onClose] is called at most
    once and [waitUntil] gets the close-wait promise at most once, and both
    have happened exactly when the promise field is set.  While the field
    is unset no callback has been queued (the queue is as constructed), and
    a call of [addCallback] then, the first one, sets it, calls [onClose]
    once and passes the promise to [waitUntil] once.  Any later call of
    [addCallback] leaves the field as it is and calls no host function at
    all: the only events it can leave are launches of callbacks. *)
Theorem close_wait_armed_once (isThenable isError : JsValue -> bool)
    (stitch : JsValue -> AfterTaskStore -> Outcome JsValue)
    (opts : AfterContextOpts) (h : gmap StoreRef (option Phase))
    (acts : list Action) (w : World)
    (callback : JsValue) (callerInfo : TaskCallerInfo) (amb : Ambient)
    (f : HostFn) :
  exec isThenable isError stitch acts (init_world opts h) = Some w ->
  waitUntil (w_ctx w) = Some f ->
  let armed t := count_events is_onClose t in
  let extended t := count_events is_waitUntil_closeWait t in
  let r := addCallback callback callerInfo amb w in
  armed (w_trace w) <= 1
  /\ extended (w_trace w) <= 1
  /\ r.1 = Ret tt
  /\ runCallbacksOnClosePromise (w_ctx r.2) = Some PCloseWait
  /\ match runCallbacksOnClosePromise (w_ctx w) with
     | None =>
         callbackQueue (w_ctx w) = pq_pause pq_new
         /\ armed (w_trace w) = 0 /\ extended (w_trace w) = 0
         /\ armed (w_trace r.2) = 1 /\ extended (w_trace r.2) = 1
         /\ EvWaitUntil f PCloseWait ∈ w_trace r.2
     | Some p =>
         p = PCloseWait
         /\ armed (w_trace w) = 1 /\ extended (w_trace w) = 1
         /\ armed (w_trace r.2) = 1 /\ extended (w_trace r.2) = 1
         /\ Forall (fun e => is_callback_begin e = true)
              (drop (length (w_trace w)) (w_trace r.2))
     end.
Proof.
  intros Hexec Hwu armed extended r. subst armed extended r.
  assert (Hinv : arming_invariant w).
  { apply (exec_invariant isThenable isError stitch arming_invariant
             arming_invariant_step acts (init_world opts h) w);
      [apply arming_invariant_init|exact Hexec]. }
  destruct (step_effect_addCallback callback callerInfo amb w f Hwu)
    as (evs & Ht & _ & _ & _ & _ & _ & _ & Harm).
  unfold run_sync in Ht, Harm.
  assert (Hspec := addCallback_spec callback callerInfo amb w f Hwu).
  simpl in Hspec.
  destruct (addCallback callback callerInfo amb w) as [o w1] eqn:Hcall.
  injection Hspec as -> Hw1. simpl in *.
  assert (Hmem : runCallbacksOnClosePromise (w_ctx w) = None ->
                 EvWaitUntil f PCloseWait ∈ w_trace w1).
  { intros Hnone. rewrite Hw1, Hnone. simpl. rewrite app_assoc.
    apply elem_of_app. right. apply elem_of_cons. right. by left. }
  assert (Hbegin : is_Some (runCallbacksOnClosePromise (w_ctx w)) ->
                   Forall (fun e => is_callback_begin e = true)
                     (drop (length (w_trace w)) (w_trace w1))).
  { intros [p Hp]. rewrite Hw1, Hp. simpl. rewrite drop_app_length.
    unfold pq_add, pq_process. simpl.
    destruct (isPaused (callbackQueue (w_ctx w))); simpl; [constructor|].
    apply Forall_forall. intros e He.
    apply (list_elem_of_fmap_1 EvCallbackBegin) in He as (x & -> & _). done. }
  clear Hw1.
  unfold arming_invariant in Hinv.
  destruct (runCallbacksOnClosePromise (w_ctx w)) as [p|].
  - destruct Hinv as (-> & H1 & H2). destruct Harm as (Hp & Ha & He).
    specialize (Hbegin ltac:(by eexists)).
    rewrite Ht, !count_events_app, H1, H2, Ha, He, Hp. simpl.
    rewrite <- Ht. repeat split; try lia; done.
  - destruct Hinv as (Hq & _ & H1 & H2).
    destruct Harm as [(Hn & Ha0 & He0)|(Hp & Ha & He)].
    + exfalso. specialize (Hmem eq_refl).
      rewrite Ht in Hmem. apply elem_of_app in Hmem as [Hmem|Hmem].
      * apply list_elem_of_split in Hmem as (l1 & l2 & Heq).
        rewrite Heq, count_events_app in H2. simpl in H2. lia.
      * apply list_elem_of_split in Hmem as (l1 & l2 & Heq).
        rewrite Heq, count_events_app in He0. simpl in He0. lia.
    + specialize (Hmem eq_refl).
      rewrite Ht, !count_events_app, H1, H2, Ha, He, Hp. simpl.
      rewrite <- Ht. repeat split; try lia; done.
Qed.

Lemma close_wait_armed_once_witness :
  let w := init_world Sample.opts Sample.heap in
  let armed t := count_events is_onClose t in
  let extended t := count_events is_waitUntil_closeWait t in
  let r := addCallback (Sample.fn 1) (Sample.caller "a") (Sample.in_request 5) w in
  armed (w_trace w) <= 1
  /\ extended (w_trace w) <= 1
  /\ r.1 = Ret tt
  /\ runCallbacksOnClosePromise (w_ctx r.2) = Some PCloseWait
  /\ match runCallbacksOnClosePromise (w_ctx w) with
     | None =>
         callbackQueue (w_ctx w) = pq_pause pq_new
         /\ armed (w_trace w) = 0 /\ extended (w_trace w) = 0
         /\ armed (w_trace r.2) = 1 /\ extended (w_trace r.2) = 1
         /\ EvWaitUntil 1 PCloseWait ∈ w_trace r.2
     | Some p =>
         p = PCloseWait
         /\ armed (w_trace w) = 1 /\ extended (w_trace w) = 1
         /\ armed (w_trace r.2) = 1 /\ extended (w_trace r.2) = 1
         /\ Forall (fun e => is_callback_begin e = true)
              (drop (length (w_trace w)) (w_trace r.2))
     end.
Proof.
  apply (close_wait_armed_once Sample.isThenable Sample.isError
           Sample.stitchAfterCallstack Sample.opts Sample.heap []
           (init_world Sample.opts Sample.heap)
           (Sample.fn 1) (Sample.caller "a") (Sample.in_request 5) 1).
  - reflexivity.
  - reflexivity.
Defined.

(** * Further properties of the coordinator *)

(** ** Every step is one of the cases of [step_rel] *)

Lemma addCallback_added callback callerInfo amb w f :
  waitUntil (w_ctx w) = Some f ->
  addCallback callback callerInfo amb w
  = (Ret tt, added callback callerInfo amb f w).
Proof. intros Hwu. by rewrite (addCallback_spec callback callerInfo amb w f Hwu). Qed.

Lemma after_sound isThenable isError stitch task callerInfo amb w :
  step_rel isError stitch w
    (run_sync (after isThenable task callerInfo amb) w).
Proof.
  unfold run_sync.
  destruct (waitUntil (w_ctx w)) as [f|] eqn:Hwu.
  - destruct (isThenable task) eqn:Ht.
    + rewrite (after_thenable_spec isThenable task callerInfo amb w f Ht Hwu).
      by apply SR_thenable.
    + unfold after. rewrite Ht.
      destruct (decide (typeof task = TyFunction)).
      * rewrite (addCallback_added task callerInfo amb w f Hwu).
        by apply SR_add.
      * unfold throw. apply SR_throw.
  - assert (H : exists e, after isThenable task callerInfo amb w = (Throw e, w)).
    { unfold after. destruct (isThenable task).
      - unfold_monad. rewrite Hwu. by eexists.
      - destruct (decide (typeof task = TyFunction)).
        + rewrite addCallback_no_waitUntil by done. by eexists.
        + by eexists. }
    destruct H as [e ->]. apply SR_throw.
Qed.

Lemma step_sound isThenable isError stitch a w w' :
  step isThenable isError stitch a w = Some w' ->
  step_rel isError stitch w w'.
Proof.
  destruct a as [task callerInfo amb| |amb|k error amb|i failure|]; simpl.
  - intros H. injection H as <-. apply after_sound.
  - destruct (w_closeWait w) eqn:Hcw; intros H; try discriminate H;
      injection H as <-;
      [by apply SR_close_first|apply SR_close_again; congruence..].
  - destruct (w_closeWait w) eqn:Hcw; try discriminate.
    intros H. injection H as <-.
    destruct (decide (pq_size (callbackQueue (w_ctx w)) = 0)) as [Hz|Hnz].
    + rewrite (runCallbacks_empty amb w Hz). by apply SR_drain_nothing.
    + destruct (amb_workStore amb) as [ws|] eqn:Hws.
      * rewrite (runCallbacks_workStore amb w ws Hnz Hws).
        by apply SR_drain_start.
      * rewrite (runCallbacks_no_workStore amb w Hnz Hws).
        by apply SR_drain_fatal.
  - destruct (w_catchHandlers w !! k) as [[task callerInfo]|] eqn:Hk;
      [|discriminate].
    intros H. injection H as <-.
    unfold run_sync, catchHandler. rewrite reportTaskError_spec.
    exact (SR_reject isError stitch w k task callerInfo error amb Hk).
  - destruct (pq_pending (callbackQueue (w_ctx w)) !! i) as [cb|] eqn:Hi;
      [|discriminate].
    intros H. injection H as <-.
    destruct failure as [error|].
    + unfold run_sync. rewrite reportTaskError_spec.
      exact (SR_settle_fail isError stitch w i cb error Hi).
    + exact (SR_settle_ok isError stitch w i cb Hi).
  - destruct (w_closeWait w) eqn:Hcw; try discriminate.
    destruct (pq_idle (callbackQueue (w_ctx w))) eqn:Hidle; [|discriminate].
    intros H. injection H as <-. by apply SR_idle.
Qed.

(** ** Invariants of every reachable world *)

Lemma set_queue_id c : set_queue (callbackQueue c) c = c.
Proof. by destruct c. Qed.

Lemma Set_add_NoDup s l : NoDup l -> NoDup (Set_add s l).
Proof.
  intros Hnd. unfold Set_add. destruct (decide (s ∈ l)); [done|].
  apply NoDup_app. split; [done|]. split.
  - intros x Hx Hs. apply list_elem_of_singleton in Hs. congruence.
  - apply NoDup_singleton.
Qed.

Lemma Set_add_subseteq s l x : x ∈ l -> x ∈ Set_add s l.
Proof.
  intros Hx. unfold Set_add. destruct (decide (s ∈ l)); [done|].
  apply elem_of_app. by left.
Qed.

Lemma Set_add_elem s l : s ∈ Set_add s l.
Proof.
  unfold Set_add. destruct (decide (s ∈ l)); [done|].
  apply elem_of_app. right. by left.
Qed.

Lemma pq_add_paused cb q :
  isPaused q = true ->
  pq_add cb q = ({| isPaused := true; pq_queue := pq_queue q ++ [cb];
                    pq_pending := pq_pending q |}, []).
Proof. intros Hp. unfold pq_add, pq_process. simpl. by rewrite Hp. Qed.

Lemma pq_add_events cb q e :
  e ∈ (pq_add cb q).2 -> exists x, e = EvCallbackBegin x.
Proof.
  unfold pq_add, pq_process. simpl. destruct (isPaused q); simpl.
  - intros He. by apply elem_of_nil in He.
  - intros He. apply (list_elem_of_fmap_1 EvCallbackBegin) in He as (x & -> & _).
    by exists x.
Qed.

Lemma pq_start_events q e :
  e ∈ (pq_start q).2 -> exists x, e = EvCallbackBegin x.
Proof.
  unfold pq_start, pq_process. destruct (isPaused q); simpl.
  - intros He. apply (list_elem_of_fmap_1 EvCallbackBegin) in He as (x & -> & _).
    by exists x.
  - intros He. by apply elem_of_nil in He.
Qed.

Lemma reach_invariant_add opts h w callback callerInfo amb f :
  reach_invariant opts h w ->
  waitUntil (w_ctx w) = Some f ->
  reach_invariant opts h (added callback callerInfo amb f w).
Proof.
  intros (Hcfg & Hnd & Hpr & Hun & Hne & Hbd & Hcl & Hcnt & Hph & Hinert) Hwu.
  set (obs := match amb_workUnitStore amb with
              | Some s => Set_add s (workUnitStores (w_ctx w))
              | None => workUnitStores (w_ctx w)
              end).
  assert (Hobs : NoDup obs).
  { unfold obs. destruct (amb_workUnitStore amb); [by apply Set_add_NoDup|done]. }
  assert (Hsub : forall x, x ∈ workUnitStores (w_ctx w) -> x ∈ obs).
  { unfold obs. intros x Hx.
    destruct (amb_workUnitStore amb); [by apply Set_add_subseteq|done]. }
  set (cb := wrap (w_stores w) callback callerInfo amb).
  assert (Hquiet : forall e, e ∈ (pq_add cb (callbackQueue (w_ctx w))).2 ->
                     is_queue_start e = false /\ is_phase_set e = false).
  { intros e He. apply pq_add_events in He as [x ->]. done. }
  assert (Hnone : opt_waitUntil opts <> None).
  { destruct Hcfg as [Hc _]. congruence. }
  unfold added. fold obs cb.
  destruct (runCallbacksOnClosePromise (w_ctx w)) as [p|] eqn:Hp.
  - assert (Hcw : w_closeWait w <> CWUnarmed).
    { intros Hu. apply Hpr in Hu. discriminate Hu. }
    unfold reach_invariant. simpl. rewrite Hp.
    split; [exact Hcfg|]. split; [exact Hobs|]. split; [exact Hpr|].
    split; [done|].
    split.
    { intros Ha. destruct (Hbd (or_intror Ha)) as (Hpa & _).
      rewrite (pq_add_paused cb _ Hpa). simpl.
      intros Hnil. by apply app_eq_nil in Hnil as [_ ?]. }
    split.
    { intros Hb. destruct (Hbd Hb) as (Hpa & Hs & Htr).
      rewrite (pq_add_paused cb _ Hpa). simpl.
      split; [done|]. split; [done|].
      intros e [He|He]%elem_of_app; [by apply Htr|by apply elem_of_nil in He]. }
    split.
    { intros H1 H2. apply elem_of_app. left. by apply Hcl. }
    split.
    { rewrite count_events_app,
        (count_events_none is_queue_start
           (pq_add cb (callbackQueue (w_ctx w))).2); [lia|].
      intros e He. by destruct (Hquiet e He). }
    split.
    { intros s p0 [He|He]%elem_of_app.
      - destruct (Hph s p0 He) as [-> Hs]. split; [done|by apply Hsub].
      - destruct (Hquiet _ He) as [_ Hx]. discriminate Hx. }
    done.
  - assert (Hcw : w_closeWait w = CWUnarmed) by (by apply Hpr).
    assert (Hq := Hun Hcw).
    destruct (Hbd (or_introl Hcw)) as (Hpa & Hs & Htr).
    unfold reach_invariant. simpl.
    rewrite (pq_add_paused cb _ Hpa). simpl.
    split; [exact Hcfg|]. split; [exact Hobs|].
    split; [split; discriminate|].
    split; [discriminate|].
    split.
    { intros _ Hnil. by apply app_eq_nil in Hnil as [_ ?]. }
    split.
    { intros _. split; [done|]. split; [done|].
      intros e [He|He]%elem_of_app; [by apply Htr|].
      repeat (apply elem_of_cons in He as [->|He]; [done|]).
      by apply elem_of_nil in He. }
    split; [done|].
    split.
    { rewrite count_events_app. simpl. lia. }
    split.
    { intros s p0 [He|He]%elem_of_app.
      - destruct (Hph s p0 He) as [-> Hs']. split; [done|by apply Hsub].
      - repeat (apply elem_of_cons in He as [He|He]; [discriminate He|]).
        by apply elem_of_nil in He. }
    done.
Qed.

Lemma reach_invariant_frame opts h w w' evs q' :
  reach_invariant opts h w ->
  w_trace w' = w_trace w ++ evs ->
  (forall e, e ∈ evs -> is_queue_start e = false /\ is_phase_set e = false) ->
  w_ctx w' = set_queue q' (w_ctx w) ->
  isPaused q' = isPaused (callbackQueue (w_ctx w)) ->
  pq_queue q' = pq_queue (callbackQueue (w_ctx w)) ->
  (pq_pending (callbackQueue (w_ctx w)) = [] -> q' = callbackQueue (w_ctx w)) ->
  w_stores w' = w_stores w ->
  (w_closeWait w' = w_closeWait w
   \/ exists ws, w_closeWait w = CWDraining ws /\ w_closeWait w' = CWFulfilled) ->
  (opt_waitUntil opts = None ->
   w_catchHandlers w' = w_catchHandlers w
   /\ forall e, e ∈ evs -> is_thrown e = true) ->
  reach_invariant opts h w'.
Proof.
  intros (Hcfg & Hnd & Hpr & Hun & Hne & Hbd & Hcl & Hcnt & Hph & Hinert)
    Ht Hevs Hctx Hp Hq Hsame Hst Hcw Hin.
  assert (Hbefore : before_drain (w_closeWait w') ->
                    w_closeWait w' = w_closeWait w).
  { intros Hb. destruct Hcw as [->|(ws & _ & Hf)]; [done|].
    rewrite Hf in Hb. destruct Hb as [Hb|[Hb|Hb]]; discriminate Hb. }
  assert (Hawait : awaiting_drain (w_closeWait w') ->
                   w_closeWait w' = w_closeWait w).
  { intros Hb. apply Hbefore. by right. }
  unfold reach_invariant. rewrite Ht, Hctx, Hst. simpl.
  split; [exact Hcfg|]. split; [exact Hnd|].
  split.
  { destruct Hcw as [->|(ws & Hd & Hf)]; [exact Hpr|].
    rewrite Hf. split; [|discriminate].
    intros Hn. apply Hpr in Hn. congruence. }
  split.
  { intros Hu. rewrite Hbefore in Hu by (by left).
    rewrite Hsame; [by apply Hun|]. by rewrite (Hun Hu). }
  split.
  { intros Ha. rewrite Hq. apply Hne. by rewrite <- (Hawait Ha). }
  split.
  { intros Hb. rewrite Hp.
    destruct Hbd as (Hbp & Hbs & Hbt); [by rewrite <- (Hbefore Hb)|].
    split; [done|]. split; [done|].
    intros e [He|He]%elem_of_app; [by apply Hbt|by apply Hevs]. }
  split.
  { intros H1 H2. apply elem_of_app. left.
    destruct Hcw as [Heq|(ws & Hd & _)].
    - rewrite Heq in H1, H2. by apply Hcl.
    - apply Hcl; congruence. }
  split.
  { rewrite count_events_app, (count_events_none is_queue_start evs); [lia|].
    intros e He. by destruct (Hevs e He). }
  split.
  { intros s p [He|He]%elem_of_app; [by apply Hph|].
    destruct (Hevs _ He) as [_ Hx]. discriminate Hx. }
  intros Hnone. destruct (Hinert Hnone) as (Hc & Hh & Hth).
  destruct (Hin Hnone) as (Hh' & Hth').
  split.
  { rewrite Hsame; [by destruct (w_ctx w)|]. by rewrite Hc. }
  split; [congruence|].
  intros e [He|He]%elem_of_app; [by apply Hth|by apply Hth'].
Qed.

Lemma reach_invariant_drain opts h w (c : CloseWait) (started : bool) :
  reach_invariant opts h w ->
  w_closeWait w = CWResolved ->
  ~ before_drain c ->
  reach_invariant opts h
    (set_closeWait c (if started then queue_started w else phases_flipped w)).
Proof.
  intros (Hcfg & Hnd & Hpr & Hun & Hne & Hbd & Hcl & Hcnt & Hph & Hinert) Hcw Hc.
  assert (Hb : before_drain (w_closeWait w)).
  { rewrite Hcw. right. by right. }
  destruct (Hbd Hb) as (Hpa & Hs & Htr).
  assert (Hcnt0 : count_events is_queue_start (w_trace w) = 0).
  { apply count_events_none. intros e He. by destruct (Htr e He). }
  assert (Hflips : count_events is_queue_start
                     (map (fun s => EvPhaseSet s PhaseAfter)
                        (workUnitStores (w_ctx w))) = 0).
  { apply count_events_none. intros e He.
    apply phase_events_only in He as [s ->]. done. }
  assert (Hbegins : count_events is_queue_start
                      (pq_start (callbackQueue (w_ctx w))).2 = 0).
  { apply count_events_none. intros e He.
    apply pq_start_events in He as [x ->]. done. }
  assert (Hprn : runCallbacksOnClosePromise (w_ctx w) <> None).
  { intros Hn. apply Hpr in Hn. congruence. }
  assert (Hclose : EvCloseFired ∈ w_trace w).
  { apply Hcl; congruence. }
  assert (Hnotun : c <> CWUnarmed).
  { intros ->. apply Hc. by left. }
  unfold reach_invariant.
  destruct started; simpl.
  - split; [exact Hcfg|]. split; [exact Hnd|].
    split; [split; [done|intros ?; done]|].
    split; [done|].
    split; [intros Ha; exfalso; apply Hc; by right|].
    split; [intros Hb'; by exfalso|].
    split.
    { intros _ _. apply elem_of_app. left. apply elem_of_app. by left. }
    split.
    { rewrite !count_events_app. simpl. rewrite Hcnt0, Hflips, Hbegins. lia. }
    split.
    { intros s p [[He|He]%elem_of_app|He]%elem_of_app.
      - by apply Hph.
      - apply (list_elem_of_fmap_1 (fun s => EvPhaseSet s PhaseAfter)) in He
          as (s' & Heq & Hs').
        injection Heq as -> ->. done.
      - apply elem_of_cons in He as [He|He]; [discriminate He|].
        apply pq_start_events in He as [x Hx]. discriminate Hx. }
    intros Hnone. destruct (Hinert Hnone) as (Hctx & _).
    exfalso. apply Hprn. by rewrite Hctx.
  - split; [exact Hcfg|]. split; [exact Hnd|].
    split; [split; [done|intros ?; done]|].
    split; [done|].
    split; [intros Ha; exfalso; apply Hc; by right|].
    split; [intros Hb'; by exfalso|].
    split.
    { intros _ _. apply elem_of_app. by left. }
    split.
    { rewrite !count_events_app. rewrite Hcnt0, Hflips. lia. }
    split.
    { intros s p [He|He]%elem_of_app.
      - by apply Hph.
      - apply (list_elem_of_fmap_1 (fun s => EvPhaseSet s PhaseAfter)) in He
          as (s' & Heq & Hs').
        injection Heq as -> ->. done. }
    intros Hnone. destruct (Hinert Hnone) as (Hctx & _).
    exfalso. apply Hprn. by rewrite Hctx.
Qed.

Lemma reach_invariant_init opts h : reach_invariant opts h (init_world opts h).
Proof.
  unfold reach_invariant. simpl.
  split; [done|]. split; [apply NoDup_nil_2|].
  split; [done|]. split; [done|].
  split; [intros [H|H]; discriminate H|].
  split.
  { intros _. split; [done|]. split; [done|].
    intros e He. by apply elem_of_nil in He. }
  split; [done|]. split; [lia|].
  split; [intros s p He; by apply elem_of_nil in He|].
  intros _. split; [done|]. split; [done|].
  intros e He. by apply elem_of_nil in He.
Qed.

Lemma report_events_quiet isError stitch taskKind error stackInfo hook e :
  e ∈ report_events isError stitch taskKind error stackInfo hook ->
  is_queue_start e = false /\ is_phase_set e = false.
Proof.
  intros He. apply report_events_are_reports in He.
  destruct e; try discriminate He; done.
Qed.

Lemma reach_invariant_step isError stitch opts h w w' :
  reach_invariant opts h w -> step_rel isError stitch w w' ->
  reach_invariant opts h w'.
Proof.
  intros Hinv Hstep.
  pose proof Hinv as
    (Hcfg & Hnd & Hpr & Hun & Hne & Hbd & Hcl & Hcnt & Hph & Hinert).
  destruct Hstep as [e|task callerInfo f Hwu|callback callerInfo amb f Hwu
                    |Hcw|Hcw1 Hcw2|Hcw Hz|Hcw Hnz|ws Hcw Hnz
                    |k task callerInfo error amb Hk|i cb Hi|i cb error Hi
                    |ws Hcw Hidle].
  - apply (reach_invariant_frame opts h w _ [EvThrown e]
             (callbackQueue (w_ctx w)) Hinv); simpl; try done.
    + intros x Hx. apply list_elem_of_singleton in Hx as ->. done.
    + by rewrite set_queue_id.
    + by left.
    + intros _. split; [done|].
      intros x Hx. apply list_elem_of_singleton in Hx as ->. done.
  - eapply (reach_invariant_frame opts h w _ _
              (callbackQueue (w_ctx w)) Hinv); simpl; try done.
    + intros x Hx.
      repeat (apply elem_of_cons in Hx as [->|Hx]; [done|]).
      by apply elem_of_nil in Hx.
    + by rewrite set_queue_id.
    + by left.
    + intros Hnone. destruct Hcfg as [Hc _]. congruence.
  - by apply reach_invariant_add.
  - assert (Hb : before_drain (w_closeWait w)).
    { rewrite Hcw. right. by left. }
    destruct (Hbd Hb) as (Hpa & Hs & Htr).
    unfold reach_invariant. simpl.
    split; [exact Hcfg|]. split; [exact Hnd|].
    split.
    { split; [|discriminate]. intros Hn. apply Hpr in Hn. congruence. }
    split; [discriminate|].
    split. { intros _. apply Hne. rewrite Hcw. by left. }
    split.
    { intros _. split; [done|]. split; [done|].
      intros x [Hx|Hx]%elem_of_app; [by apply Htr|].
      apply list_elem_of_singleton in Hx as ->. done. }
    split. { intros _ _. apply elem_of_app. right. by left. }
    split. { rewrite count_events_app. simpl. lia. }
    split.
    { intros s p [Hx|Hx]%elem_of_app; [by apply Hph|].
      apply list_elem_of_singleton in Hx. discriminate Hx. }
    intros Hnone. destruct (Hinert Hnone) as (Hctx & _).
    assert (Hu : w_closeWait w = CWUnarmed) by (apply Hpr; by rewrite Hctx).
    congruence.
  - apply (reach_invariant_frame opts h w _ [EvCloseFired]
             (callbackQueue (w_ctx w)) Hinv); simpl; try done.
    + intros x Hx. apply list_elem_of_singleton in Hx as ->. done.
    + by rewrite set_queue_id.
    + by left.
    + intros Hnone. destruct (Hinert Hnone) as (Hctx & _).
      exfalso. apply Hcw1. apply Hpr. by rewrite Hctx.
  - exfalso. apply Hne; [rewrite Hcw; by right|].
    unfold pq_size in Hz. by apply length_zero_iff_nil.
  - apply (reach_invariant_drain opts h w _ false Hinv Hcw).
    intros [H|[H|H]]; discriminate H.
  - apply (reach_invariant_drain opts h w _ true Hinv Hcw).
    intros [H|[H|H]]; discriminate H.
  - eapply (reach_invariant_frame opts h w _ _
              (callbackQueue (w_ctx w)) Hinv); simpl; try done.
    + apply report_events_quiet.
    + by rewrite set_queue_id.
    + by left.
    + intros Hnone. destruct (Hinert Hnone) as (_ & Hh & _).
      rewrite Hh in Hk. discriminate Hk.
  - apply (reach_invariant_frame opts h w _ []
             (remove_pending i (callbackQueue (w_ctx w))) Hinv); simpl;
      try done.
    + by rewrite app_nil_r.
    + intros x Hx. by apply elem_of_nil in Hx.
    + intros Hnil. rewrite Hnil in Hi. discriminate Hi.
    + by left.
    + intros _. split; [done|]. intros x Hx. by apply elem_of_nil in Hx.
  - eapply (reach_invariant_frame opts h w _ _
              (remove_pending i (callbackQueue (w_ctx w))) Hinv); simpl;
      try done.
    + apply report_events_quiet.
    + intros Hnil. rewrite Hnil in Hi. discriminate Hi.
    + by left.
    + intros Hnone. destruct (Hinert Hnone) as (Hctx & _).
      rewrite Hctx in Hi. discriminate Hi.
  - apply (reach_invariant_frame opts h w _ [EvExecuteRevalidates ws]
             (callbackQueue (w_ctx w)) Hinv); simpl; try done.
    + intros x Hx. apply list_elem_of_singleton in Hx as ->. done.
    + by rewrite set_queue_id.
    + right. by exists ws.
    + intros Hnone. destruct (Hinert Hnone) as (Hctx & _).
      assert (Hu : w_closeWait w = CWUnarmed) by (apply Hpr; by rewrite Hctx).
      congruence.
Qed.

Lemma reach_invariant_exec isThenable isError stitch opts h acts :
  forall w w',
    reach_invariant opts h w ->
    exec isThenable isError stitch acts w = Some w' ->
    reach_invariant opts h w'.
Proof.
  induction acts as [|a acts IH]; intros w w' Hinv Hexec; simpl in Hexec.
  - by injection Hexec as <-.
  - destruct (step isThenable isError stitch a w) as [w1|] eqn:Hs;
      [|discriminate].
    apply (IH w1 w'); [|done].
    apply (reach_invariant_step isError stitch opts h w w1 Hinv).
    by apply (step_sound isThenable isError stitch a).
Qed.

Lemma reachable_invariant isThenable isError stitch opts h acts w :
  exec isThenable isError stitch acts (init_world opts h) = Some w ->
  reach_invariant opts h w.
Proof.
  apply reach_invariant_exec, reach_invariant_init.
Qed.

(** ** What the coordinator does to the work-unit stores *)

(** X1: until the close thunk has been invoked the coordinator has not
    written to any work-unit store: the heap is the initial one and the
    trace holds no phase write.  Whenever it does write a phase, the value
    is ['after'] and the store is one of the observed stores. *)
Theorem stores_untouched_until_close (isThenable isError : JsValue -> bool)
    (stitch : JsValue -> AfterTaskStore -> Outcome JsValue)
    (opts : AfterContextOpts) (h : gmap StoreRef (option Phase))
    (acts : list Action) (w : World) :
  exec isThenable isError stitch acts (init_world opts h) = Some w ->
  (EvCloseFired ∉ w_trace w ->
   w_stores w = h /\ forall e, e ∈ w_trace w -> is_phase_set e = false)
  /\ (forall s p, EvPhaseSet s p ∈ w_trace w ->
        p = PhaseAfter /\ s ∈ workUnitStores (w_ctx w)).
Proof.
  intros Hexec.
  destruct (reachable_invariant _ _ _ _ _ _ _ Hexec)
    as (_ & _ & _ & _ & _ & Hbd & Hcl & _ & Hph & _).
  split; [|exact Hph].
  intros Hno.
  assert (Hb : before_drain (w_closeWait w)).
  { destruct (w_closeWait w) eqn:Hcw;
      try (exfalso; apply Hno, Hcl; congruence).
    - by left.
    - right. by left. }
  destruct (Hbd Hb) as (_ & Hs & Htr).
  split; [exact Hs|]. intros e He. by destruct (Htr e He).
Qed.

Lemma stores_untouched_until_close_witness :
  let w := Sample.armed in
  (EvCloseFired ∉ w_trace w ->
   w_stores w = Sample.heap
   /\ forall e, e ∈ w_trace w -> is_phase_set e = false)
  /\ (forall s p, EvPhaseSet s p ∈ w_trace w ->
        p = PhaseAfter /\ s ∈ workUnitStores (w_ctx w)).
Proof.
  apply (stores_untouched_until_close Sample.isThenable Sample.isError
           Sample.stitchAfterCallstack Sample.opts Sample.heap
           SampleRuns.armed_acts Sample.armed).
  vm_compute. reflexivity.
Defined.

(** X2: in every run the queue is started at most once. *)
Theorem queue_started_at_most_once (isThenable isError : JsValue -> bool)
    (stitch : JsValue -> AfterTaskStore -> Outcome JsValue)
    (opts : AfterContextOpts) (h : gmap StoreRef (option Phase))
    (acts : list Action) (w : World) :
  exec isThenable isError stitch acts (init_world opts h) = Some w ->
  count_events is_queue_start (w_trace w) <= 1.
Proof.
  intros Hexec.
  by destruct (reachable_invariant _ _ _ _ _ _ _ Hexec)
    as (_ & _ & _ & _ & _ & _ & _ & Hcnt & _).
Qed.

Lemma queue_started_at_most_once_witness :
  count_events is_queue_start (w_trace Sample.closed) <= 1.
Proof.
  apply (queue_started_at_most_once Sample.isThenable Sample.isError
           Sample.stitchAfterCallstack Sample.opts Sample.heap
           Sample.closed_acts Sample.closed).
  vm_compute. reflexivity.
Defined.

(** X3: when the close-wait task resumes after the close notification, the
    queue is still paused and holds at least one callback.  So the early
    return of [runCallbacks] is not taken then: the drain either starts the
    queue or, without a work store, throws the invariant error. *)
Theorem drain_finds_queued_callbacks (isThenable isError : JsValue -> bool)
    (stitch : JsValue -> AfterTaskStore -> Outcome JsValue)
    (opts : AfterContextOpts) (h : gmap StoreRef (option Phase))
    (acts : list Action) (w : World) (amb : Ambient) :
  exec isThenable isError stitch acts (init_world opts h) = Some w ->
  w_closeWait w = CWResolved ->
  isPaused (callbackQueue (w_ctx w)) = true
  /\ pq_size (callbackQueue (w_ctx w)) <> 0
  /\ (runCallbacks amb w).1
     = match amb_workStore amb with
       | Some ws => Ret (DrainAwaitIdle ws)
       | None => Throw (VInvariantError msg_missing_workStore None)
       end.
Proof.
  intros Hexec Hcw.
  destruct (reachable_invariant _ _ _ _ _ _ _ Hexec)
    as (_ & _ & _ & _ & Hne & Hbd & _).
  assert (Ha : awaiting_drain (w_closeWait w)) by (rewrite Hcw; by right).
  destruct (Hbd (or_intror Ha)) as (Hp & _).
  assert (Hsz : pq_size (callbackQueue (w_ctx w)) <> 0).
  { unfold pq_size. intros Hz. apply (Hne Ha). by apply length_zero_iff_nil. }
  split; [exact Hp|]. split; [exact Hsz|].
  destruct (amb_workStore amb) as [ws|] eqn:Hws.
  - by rewrite (runCallbacks_workStore amb w ws Hsz Hws).
  - by rewrite (runCallbacks_no_workStore amb w Hsz Hws).
Qed.

Lemma drain_finds_queued_callbacks_witness :
  let w := SampleRuns.resolved in
  let amb := Sample.in_request 5 in
  isPaused (callbackQueue (w_ctx w)) = true
  /\ pq_size (callbackQueue (w_ctx w)) <> 0
  /\ (runCallbacks amb w).1
     = match amb_workStore amb with
       | Some ws => Ret (DrainAwaitIdle ws)
       | None => Throw (VInvariantError msg_missing_workStore None)
       end.
Proof.
  apply (drain_finds_queued_callbacks Sample.isThenable Sample.isError
           Sample.stitchAfterCallstack Sample.opts Sample.heap
           SampleRuns.resolved_acts SampleRuns.resolved (Sample.in_request 5)).
  - vm_compute. reflexivity.
  - vm_compute. reflexivity.
Defined.

Lemma step_rel_observed isError stitch w w' x :
  step_rel isError stitch w w' ->
  x ∈ workUnitStores (w_ctx w) -> x ∈ workUnitStores (w_ctx w').
Proof.
  intros Hstep Hx. destruct Hstep; simpl; try done.
  unfold added.
  destruct (runCallbacksOnClosePromise (w_ctx w)); simpl;
    (destruct (amb_workUnitStore amb); [by apply Set_add_subseteq|done]).
Qed.

Lemma exec_observed isThenable isError stitch acts :
  forall w w' x,
    exec isThenable isError stitch acts w = Some w' ->
    x ∈ workUnitStores (w_ctx w) -> x ∈ workUnitStores (w_ctx w').
Proof.
  induction acts as [|a acts IH]; intros w w' x Hexec Hx; simpl in Hexec.
  - by injection Hexec as <-.
  - destruct (step isThenable isError stitch a w) as [w1|] eqn:Hs;
      [|discriminate].
    apply (IH w1 w' x Hexec).
    apply (step_rel_observed isError stitch w w1 x); [|done].
    by apply (step_sound isThenable isError stitch a).
Qed.

(** X4: the observed work-unit stores form a set that only grows: in every
    reachable world the list has no duplicates, and whatever happens next,
    every store observed so far stays observed. *)
Theorem observed_stores_only_grow (isThenable isError : JsValue -> bool)
    (stitch : JsValue -> AfterTaskStore -> Outcome JsValue)
    (opts : AfterContextOpts) (h : gmap StoreRef (option Phase))
    (acts more : list Action) (w w' : World) :
  exec isThenable isError stitch acts (init_world opts h) = Some w ->
  exec isThenable isError stitch more w = Some w' ->
  NoDup (workUnitStores (w_ctx w'))
  /\ forall x, x ∈ workUnitStores (w_ctx w) -> x ∈ workUnitStores (w_ctx w').
Proof.
  intros Hexec Hmore. split.
  - assert (Hinv : reach_invariant opts h w').
    { apply (reach_invariant_exec isThenable isError stitch opts h more w w');
        [|exact Hmore].
      by apply (reachable_invariant isThenable isError stitch opts h acts). }
    by destruct Hinv as (_ & Hnd & _).
  - intros x. by apply (exec_observed isThenable isError stitch more).
Qed.

Lemma observed_stores_only_grow_witness :
  NoDup (workUnitStores (w_ctx SampleRuns.draining))
  /\ forall x, x ∈ workUnitStores (w_ctx Sample.armed) ->
               x ∈ workUnitStores (w_ctx SampleRuns.draining).
Proof.
  apply (observed_stores_only_grow Sample.isThenable Sample.isError
           Sample.stitchAfterCallstack Sample.opts Sample.heap
           SampleRuns.armed_acts
           [FireClose; ResumeCloseWait (Sample.in_request 5)]
           Sample.armed SampleRuns.draining).
  - vm_compute. reflexivity.
  - vm_compute. reflexivity.
Defined.

(** X5: a coordinator built without [waitUntil] never does anything: in
    every run its fields stay as constructed, no handler is attached to any
    task, the close-wait task is never created, the stores are untouched,
    and the only events are the errors [after] throws. *)
Theorem inert_without_waitUntil (isThenable isError : JsValue -> bool)
    (stitch : JsValue -> AfterTaskStore -> Outcome JsValue)
    (opts : AfterContextOpts) (h : gmap StoreRef (option Phase))
    (acts : list Action) (w : World) :
  opt_waitUntil opts = None ->
  exec isThenable isError stitch acts (init_world opts h) = Some w ->
  w_ctx w = constructor opts
  /\ w_catchHandlers w = []
  /\ w_closeWait w = CWUnarmed
  /\ w_stores w = h
  /\ forall e, e ∈ w_trace w -> is_thrown e = true.
Proof.
  intros Hnone Hexec.
  destruct (reachable_invariant _ _ _ _ _ _ _ Hexec)
    as (_ & _ & Hpr & _ & _ & Hbd & _ & _ & _ & Hinert).
  destruct (Hinert Hnone) as (Hctx & Hh & Htr).
  assert (Hcw : w_closeWait w = CWUnarmed) by (apply Hpr; by rewrite Hctx).
  destruct (Hbd (or_introl Hcw)) as (_ & Hs & _).
  done.
Qed.

Lemma inert_without_waitUntil_witness :
  let w := SampleRuns.unconfigured in
  w_ctx w = constructor Sample.opts_no_waitUntil
  /\ w_catchHandlers w = []
  /\ w_closeWait w = CWUnarmed
  /\ w_stores w = Sample.heap
  /\ forall e, e ∈ w_trace w -> is_thrown e = true.
Proof.
  apply (inert_without_waitUntil Sample.isThenable Sample.isError
           Sample.stitchAfterCallstack Sample.opts_no_waitUntil Sample.heap
           SampleRuns.unconfigured_acts SampleRuns.unconfigured).
  - reflexivity.
  - vm_compute. reflexivity.
Defined.

(** ** The reporter, case by case *)

(** X6: when the thrown value is not a recognised error, or no chain
    record is given, [reportTaskError] makes no stitch attempt: it logs the
    value as it is under the message of the task kind and, if a hook is
    configured, hands the same value to the hook. *)
Theorem report_without_stitching (isError : JsValue -> bool)
    (stitch : JsValue -> AfterTaskStore -> Outcome JsValue)
    (taskKind : TaskKind) (error : JsValue)
    (stackInfo : option AfterTaskStore) (w : World) :
  isError error = false \/ stackInfo = None ->
  reportTaskError isError stitch taskKind error stackInfo w
  = (Ret tt,
     log (task_failure_log taskKind error
            :: hook_step (onTaskError (w_ctx w)) error) w).
Proof.
  intros Hor. rewrite reportTaskError_spec.
  unfold report_events, stitch_step.
  destruct stackInfo as [info|]; [|done].
  destruct Hor as [->|Hn]; [done|discriminate Hn].
Qed.

Lemma report_without_stitching_witness :
  let w := init_world Sample.opts Sample.heap in
  let info := buildStackInfo None (Sample.caller "x") None in
  reportTaskError Sample.isError Sample.stitchAfterCallstack KindFunction
    (VRef TyString 4) (Some info) w
  = (Ret tt,
     log (task_failure_log KindFunction (VRef TyString 4)
            :: hook_step (onTaskError (w_ctx w)) (VRef TyString 4)) w).
Proof.
  apply (report_without_stitching Sample.isError Sample.stitchAfterCallstack
           KindFunction (VRef TyString 4)).
  left. reflexivity.
Defined.

(** X7: when the thrown value is a recognised error, a chain record is
    given and stitching succeeds, the stitched error replaces the original
    in everything that follows: it is the stitched error that is logged
    and that the hook receives, and no stitch-failure line is written. *)
Theorem report_uses_stitched_error (isError : JsValue -> bool)
    (stitch : JsValue -> AfterTaskStore -> Outcome JsValue)
    (taskKind : TaskKind) (error stitched : JsValue)
    (info : AfterTaskStore) (w : World) :
  isError error = true ->
  stitch error info = Ret stitched ->
  reportTaskError isError stitch taskKind error (Some info) w
  = (Ret tt,
     log ([EvStitch error info; task_failure_log taskKind stitched]
          ++ hook_step (onTaskError (w_ctx w)) stitched) w).
Proof.
  intros He Hs. rewrite reportTaskError_spec.
  unfold report_events, stitch_step. by rewrite He, Hs.
Qed.

Lemma report_uses_stitched_error_witness :
  let w := init_world Sample.opts Sample.heap in
  let info := buildStackInfo None (Sample.caller "x") None in
  reportTaskError Sample.isError Sample.stitchAfterCallstack KindPromise
    (VError "boom") (Some info) w
  = (Ret tt,
     log ([EvStitch (VError "boom") info;
           task_failure_log KindPromise (VError "boomx")]
          ++ hook_step (onTaskError (w_ctx w)) (VError "boomx")) w).
Proof.
  apply (report_uses_stitched_error Sample.isError
           Sample.stitchAfterCallstack KindPromise (VError "boom")
           (VError "boomx")).
  - reflexivity.
  - reflexivity.
Defined.

Lemma report_events_counts isError stitch taskKind error stackInfo hook :
  let evs := report_events isError stitch taskKind error stackInfo hook in
  count_events is_task_failure_log evs = 1
  /\ count_events is_stitch_attempt evs <= 1
  /\ count_events is_hook_call evs
     = match hook with Some _ => 1 | None => 0 end
  /\ count_events is_thrown evs = 0.
Proof.
  unfold report_events, stitch_step, hook_step.
  destruct stackInfo as [info|]; [destruct (isError error)|]; simpl;
    [destruct (stitch error info); simpl| |];
    (destruct hook as [hk|]; simpl;
     [match goal with |- context [hk ?x] => destruct (hk x) as [[]|] end|]);
    simpl; destruct taskKind; simpl; repeat split; lia.
Qed.

(** X8: every call of [reportTaskError], whatever the stitcher and the
    hook do, returns normally, changes nothing but the trace, and leaves
    exactly one task-failure line on the console, at most one stitch
    attempt, and one call of the hook if there is a hook and none
    otherwise. *)
Theorem report_logs_exactly_once (isError : JsValue -> bool)
    (stitch : JsValue -> AfterTaskStore -> Outcome JsValue)
    (taskKind : TaskKind) (error : JsValue)
    (stackInfo : option AfterTaskStore) (w : World) :
  let r := reportTaskError isError stitch taskKind error stackInfo w in
  let evs := drop (length (w_trace w)) (w_trace r.2) in
  r.1 = Ret tt
  /\ r.2 = log evs w
  /\ count_events is_task_failure_log evs = 1
  /\ count_events is_stitch_attempt evs <= 1
  /\ count_events is_hook_call evs
     = match onTaskError (w_ctx w) with Some _ => 1 | None => 0 end
  /\ count_events is_thrown evs = 0.
Proof.
  intros r evs. subst r evs. rewrite reportTaskError_spec. simpl.
  rewrite drop_app_length.
  split; [done|]. split; [done|]. apply report_events_counts.
Qed.

(** ** Thenable tasks *)



(** ** The frame of the drain *)


(** ** Scheduling, then the drain *)

Lemma exec_app isThenable isError stitch a b w :
  exec isThenable isError stitch (a ++ b) w
  = match exec isThenable isError stitch a w with
    | Some w1 => exec isThenable isError stitch b w1
    | None => None
    end.
Proof.
  revert w. induction a as [|x a IH]; intros w; simpl; [done|].
  destruct (step isThenable isError stitch x w); [apply IH|done].
Qed.

Lemma launched_app t1 t2 : launched (t1 ++ t2) = launched t1 ++ launched t2.
Proof.
  induction t1 as [|e t1 IH]; simpl; [done|].
  destruct e; simpl; by rewrite ?IH.
Qed.

Lemma launched_begins l : launched (map EvCallbackBegin l) = l.
Proof. induction l as [|x l IH]; simpl; [done|]. by rewrite IH. Qed.

Lemma launched_flips l :
  launched (map (fun s => EvPhaseSet s PhaseAfter) l) = [].
Proof. induction l as [|x l IH]; simpl; done. Qed.

Lemma step_schedule_function isThenable isError stitch task callerInfo amb w f :
  isThenable task = false ->
  typeof task = TyFunction ->
  waitUntil (w_ctx w) = Some f ->
  step isThenable isError stitch (CallAfter task callerInfo amb) w
  = Some (added task callerInfo amb f w).
Proof.
  intros Ht Hf Hwu. simpl. unfold run_sync, after. rewrite Ht.
  destruct (decide (typeof task = TyFunction)); [|done].
  by rewrite (addCallback_added task callerInfo amb w f Hwu).
Qed.

Lemma schedule_armed isThenable isError stitch
    (calls : list (JsValue * TaskCallerInfo * Ambient)) :
  forall (w : World) (f : HostFn) (p : PromiseRef),
    waitUntil (w_ctx w) = Some f ->
    isPaused (callbackQueue (w_ctx w)) = true ->
    runCallbacksOnClosePromise (w_ctx w) = Some p ->
    Forall (fun c => isThenable c.1.1 = false /\ typeof c.1.1 = TyFunction)
      calls ->
    exists w1,
      exec isThenable isError stitch (schedule_acts calls) w = Some w1
      /\ pq_queue (callbackQueue (w_ctx w1))
         = pq_queue (callbackQueue (w_ctx w))
           ++ map (fun c => wrap (w_stores w) c.1.1 c.1.2 c.2) calls
      /\ isPaused (callbackQueue (w_ctx w1)) = true
      /\ pq_pending (callbackQueue (w_ctx w1))
         = pq_pending (callbackQueue (w_ctx w))
      /\ w_stores w1 = w_stores w
      /\ w_closeWait w1 = w_closeWait w
      /\ w_trace w1 = w_trace w
      /\ (forall x,
            x ∈ workUnitStores (w_ctx w)
            \/ (exists c, c ∈ calls /\ amb_workUnitStore c.2 = Some x) ->
            x ∈ workUnitStores (w_ctx w1)).
Proof.
  induction calls as [|[[task callerInfo] amb] rest IH];
    intros w f p Hwu Hpa Hpr Hall.
  - exists w. simpl. rewrite app_nil_r. repeat split; try done.
    intros x [Hx|(c & Hc & _)]; [done|]. by apply elem_of_nil in Hc.
  - apply Forall_cons in Hall as [[Ht Hf] Hall]. simpl in Ht, Hf.
    simpl.
    change (run_sync (after isThenable task callerInfo amb) w)
      with (default w (step isThenable isError stitch
                         (CallAfter task callerInfo amb) w)).
    rewrite (step_schedule_function isThenable isError stitch task callerInfo
               amb w f Ht Hf Hwu). simpl.
    set (w0 := added task callerInfo amb f w).
    assert (Hw0 : w0 = log [] (set_ctx
                   (set_queue
                      {| isPaused := true;
                         pq_queue := pq_queue (callbackQueue (w_ctx w))
                                     ++ [wrap (w_stores w) task callerInfo amb];
                         pq_pending := pq_pending (callbackQueue (w_ctx w)) |}
                      (set_workUnitStores
                         match amb_workUnitStore amb with
                         | Some s => Set_add s (workUnitStores (w_ctx w))
                         | None => workUnitStores (w_ctx w)
                         end (w_ctx w))) w)).
    { unfold w0, added. rewrite Hpr. by rewrite (pq_add_paused _ _ Hpa). }
    assert (Hwu0 : waitUntil (w_ctx w0) = Some f) by (by rewrite Hw0).
    assert (Hpa0 : isPaused (callbackQueue (w_ctx w0)) = true)
      by (by rewrite Hw0).
    assert (Hpr0 : runCallbacksOnClosePromise (w_ctx w0) = Some p)
      by (by rewrite Hw0).
    destruct (IH w0 f p Hwu0 Hpa0 Hpr0 Hall)
      as (w1 & Hex & Hq & Hp1 & Hpe & Hs & Hcw & Htr & Hobs).
    exists w1. split; [exact Hex|].
    rewrite Hw0 in Hq, Hpe, Hs, Hcw, Htr, Hobs. simpl in *.
    rewrite app_nil_r in Htr.
    split. { by rewrite Hq, <- app_assoc. }
    split; [done|]. split; [done|]. split; [done|]. split; [done|].
    split; [done|].
    intros x [Hx|(c & Hc & Hcs)].
    + apply Hobs. left.
      destruct (amb_workUnitStore amb); [by apply Set_add_subseteq|done].
    + apply elem_of_cons in Hc as [->|Hc].
      * apply Hobs. left. simpl in Hcs. rewrite Hcs. apply Set_add_elem.
      * apply Hobs. right. by exists c.
Qed.

Lemma schedule_then_drain isThenable isError stitch opts h
    (calls : list (JsValue * TaskCallerInfo * Ambient)) amb f ws :
  opt_waitUntil opts = Some f ->
  calls <> [] ->
  Forall (fun c => isThenable c.1.1 = false /\ typeof c.1.1 = TyFunction)
    calls ->
  amb_workStore amb = Some ws ->
  exists w,
    exec isThenable isError stitch
      (schedule_acts calls ++ [FireClose; ResumeCloseWait amb])
      (init_world opts h) = Some w
    /\ launched (w_trace w) = map (fun c => wrap h c.1.1 c.1.2 c.2) calls
    /\ pq_pending (callbackQueue (w_ctx w))
       = map (fun c => wrap h c.1.1 c.1.2 c.2) calls
    /\ pq_queue (callbackQueue (w_ctx w)) = []
    /\ isPaused (callbackQueue (w_ctx w)) = false
    /\ w_closeWait w = CWDraining ws
    /\ (forall c s, c ∈ calls -> amb_workUnitStore c.2 = Some s ->
          phase_of (w_stores w) s = Some PhaseAfter).
Proof.
  intros Hwu Hne Hall Hws.
  destruct calls as [|[[task callerInfo] amb0] rest]; [done|].
  apply Forall_cons in Hall as [[Ht Hf] Hall]. simpl in Ht, Hf.
  set (w0 := added task callerInfo amb0 f (init_world opts h)).
  assert (Hw0 : w0 = log [EvOnClose (opt_onClose opts); EvWaitUntil f PCloseWait]
            (set_closeWait CWAwaitingClose
               (set_ctx
                  (set_promise (Some PCloseWait)
                     (set_queue
                        {| isPaused := true;
                           pq_queue := [wrap h task callerInfo amb0];
                           pq_pending := [] |}
                        (set_workUnitStores
                           match amb_workUnitStore amb0 with
                           | Some s => Set_add s []
                           | None => []
                           end (constructor opts))))
                  (init_world opts h)))).
  { reflexivity. }
  assert (Hwu0 : waitUntil (w_ctx w0) = Some f) by (by rewrite Hw0).
  assert (Hpa0 : isPaused (callbackQueue (w_ctx w0)) = true) by (by rewrite Hw0).
  assert (Hpr0 : runCallbacksOnClosePromise (w_ctx w0) = Some PCloseWait)
    by (by rewrite Hw0).
  destruct (schedule_armed isThenable isError stitch rest w0 f PCloseWait
              Hwu0 Hpa0 Hpr0 Hall)
    as (w1 & Hex & Hq & Hp1 & Hpe & Hs & Hcw & Htr & Hobs).
  rewrite Hw0 in Hq, Hpe, Hs, Hcw, Htr, Hobs. simpl in Hq, Hpe, Hs, Hcw, Htr, Hobs.
  change (schedule_acts ((task, callerInfo, amb0) :: rest)
          ++ [FireClose; ResumeCloseWait amb])
    with (CallAfter task callerInfo amb0
          :: (schedule_acts rest ++ [FireClose; ResumeCloseWait amb])).
  cbn [exec].
  rewrite (step_schedule_function isThenable isError stitch task callerInfo
             amb0 (init_world opts h) f Ht Hf Hwu).
  fold w0. rewrite exec_app, Hex.
  cbn [exec step]. rewrite Hcw.
  set (w2 := log [EvCloseFired] (set_closeWait CWResolved w1)).
  assert (Hsz : pq_size (callbackQueue (w_ctx w2)) <> 0).
  { unfold w2, pq_size. simpl. rewrite Hq. simpl. lia. }
  assert (Hcw2 : w_closeWait w2 = CWResolved) by done.
  rewrite Hcw2.
  rewrite (runCallbacks_workStore amb w2 ws Hsz Hws).
  eexists. split; [reflexivity|].
  assert (Hstart : pq_start (callbackQueue (w_ctx w1))
                   = ({| isPaused := false; pq_queue := [];
                         pq_pending := pq_pending (callbackQueue (w_ctx w1))
                                       ++ pq_queue (callbackQueue (w_ctx w1)) |},
                      map EvCallbackBegin (pq_queue (callbackQueue (w_ctx w1))))).
  { unfold pq_start, pq_process. simpl. by rewrite Hp1. }
  simpl. rewrite Hstart. simpl. rewrite Hq, Hpe, Htr.
  split.
  { rewrite !launched_app. simpl. rewrite launched_flips. simpl.
    by rewrite launched_begins. }
  split; [done|]. split; [done|]. split; [done|]. split; [done|].
  intros c s Hc Hcs. apply flipped_elem. apply Hobs.
  apply elem_of_cons in Hc as [->|Hc].
  - left. simpl in Hcs. rewrite Hcs. apply Set_add_elem.
  - right. by exists c.
Qed.

(** X11: procedures scheduled before the response closes are launched by
    the drain in the order in which they were scheduled, each bound to the
    ambient stores of its own call of [after]; nothing stays queued and
    the close-wait task then waits for the queue to become idle. *)
Theorem scheduled_callbacks_launch_in_order
    (isThenable isError : JsValue -> bool)
    (stitch : JsValue -> AfterTaskStore -> Outcome JsValue)
    (opts : AfterContextOpts) (h : gmap StoreRef (option Phase))
    (calls : list (JsValue * TaskCallerInfo * Ambient))
    (amb : Ambient) (f : HostFn) (ws : WorkStoreRef) :
  opt_waitUntil opts = Some f ->
  calls <> [] ->
  Forall (fun c => isThenable c.1.1 = false /\ typeof c.1.1 = TyFunction)
    calls ->
  amb_workStore amb = Some ws ->
  exists w,
    exec isThenable isError stitch
      (schedule_acts calls ++ [FireClose; ResumeCloseWait amb])
      (init_world opts h) = Some w
    /\ map wc_callback (launched (w_trace w)) = map (fun c => c.1.1) calls
    /\ map wc_snapshot (launched (w_trace w)) = map (fun c => c.2) calls
    /\ pq_pending (callbackQueue (w_ctx w)) = launched (w_trace w)
    /\ pq_queue (callbackQueue (w_ctx w)) = []
    /\ w_closeWait w = CWDraining ws.
Proof.
  intros Hwu Hne Hall Hws.
  destruct (schedule_then_drain isThenable isError stitch opts h calls amb f ws
              Hwu Hne Hall Hws)
    as (w & Hex & Hl & Hp & Hq & _ & Hcw & _).
  exists w. split; [exact Hex|]. rewrite Hl, Hp.
  split. { rewrite <- list_fmap_compose. done. }
  split. { rewrite <- list_fmap_compose. done. }
  done.
Qed.

Lemma scheduled_callbacks_launch_in_order_witness :
  exists w,
    Sample.run
      (schedule_acts SampleRuns.calls
       ++ [FireClose; ResumeCloseWait (Sample.in_request 5)])
      (init_world Sample.opts Sample.heap) = Some w
    /\ map wc_callback (launched (w_trace w))
       = map (fun c => c.1.1) SampleRuns.calls
    /\ map wc_snapshot (launched (w_trace w))
       = map (fun c => c.2) SampleRuns.calls
    /\ pq_pending (callbackQueue (w_ctx w)) = launched (w_trace w)
    /\ pq_queue (callbackQueue (w_ctx w)) = []
    /\ w_closeWait w = CWDraining 9.
Proof.
  apply (scheduled_callbacks_launch_in_order Sample.isThenable Sample.isError
           Sample.stitchAfterCallstack Sample.opts Sample.heap
           SampleRuns.calls (Sample.in_request 5) 1 9).
  - reflexivity.
  - discriminate.
  - repeat constructor.
  - reflexivity.
Defined.

(** X12: the phase a root call records is the phase its work-unit store
    had when the procedure was scheduled, not the phase at the time it
    runs: after the drain has put every observed store in phase ['after'],
    the launched callback of a root call still carries the store's initial
    phase as [rootTaskSpawnPhase]. *)
Theorem spawn_phase_survives_phase_flip
    (isThenable isError : JsValue -> bool)
    (stitch : JsValue -> AfterTaskStore -> Outcome JsValue)
    (opts : AfterContextOpts) (h : gmap StoreRef (option Phase))
    (calls : list (JsValue * TaskCallerInfo * Ambient))
    (amb : Ambient) (f : HostFn) (ws : WorkStoreRef) :
  opt_waitUntil opts = Some f ->
  calls <> [] ->
  Forall (fun c => isThenable c.1.1 = false /\ typeof c.1.1 = TyFunction)
    calls ->
  amb_workStore amb = Some ws ->
  exists w,
    exec isThenable isError stitch
      (schedule_acts calls ++ [FireClose; ResumeCloseWait amb])
      (init_world opts h) = Some w
    /\ forall c s,
         c ∈ calls ->
         amb_workUnitStore c.2 = Some s ->
         amb_afterTaskStore c.2 = None ->
         phase_of (w_stores w) s = Some PhaseAfter
         /\ exists cb,
              cb ∈ launched (w_trace w)
              /\ wc_callback cb = c.1.1
              /\ rootTaskSpawnPhase (wc_store cb) = phase_of h s.
Proof.
  intros Hwu Hne Hall Hws.
  destruct (schedule_then_drain isThenable isError stitch opts h calls amb f ws
              Hwu Hne Hall Hws)
    as (w & Hex & Hl & _ & _ & _ & _ & Hph).
  exists w. split; [exact Hex|].
  intros c s Hc Hcs Hroot. split; [by apply (Hph c s)|].
  exists (wrap h c.1.1 c.1.2 c.2). split.
  - rewrite Hl. by apply (list_elem_of_fmap_2 (fun c => wrap h c.1.1 c.1.2 c.2)).
  - split; [done|]. unfold wrap. simpl. by rewrite Hcs, Hroot.
Qed.

Lemma spawn_phase_survives_phase_flip_witness :
  exists w,
    Sample.run
      (schedule_acts SampleRuns.calls
       ++ [FireClose; ResumeCloseWait (Sample.in_request 5)])
      (init_world Sample.opts Sample.heap) = Some w
    /\ forall c s,
         c ∈ SampleRuns.calls ->
         amb_workUnitStore c.2 = Some s ->
         amb_afterTaskStore c.2 = None ->
         phase_of (w_stores w) s = Some PhaseAfter
         /\ exists cb,
              cb ∈ launched (w_trace w)
              /\ wc_callback cb = c.1.1
              /\ rootTaskSpawnPhase (wc_store cb) = phase_of Sample.heap s.
Proof.
  apply (spawn_phase_survives_phase_flip Sample.isThenable Sample.isError
           Sample.stitchAfterCallstack Sample.opts Sample.heap
           SampleRuns.calls (Sample.in_request 5) 1 9).
  - reflexivity.
  - discriminate.
  - repeat constructor.
  - reflexivity.
Defined.

(** ** Settling the callbacks in flight *)

Lemma settle_all isThenable isError stitch (outcomes : list (option JsValue)) :
  forall w,
    pq_queue (callbackQueue (w_ctx w)) = [] ->
    length outcomes = length (pq_pending (callbackQueue (w_ctx w))) ->
    exists w1 evs,
      exec isThenable isError stitch (settle_acts outcomes) w = Some w1
      /\ pq_pending (callbackQueue (w_ctx w1)) = []
      /\ pq_queue (callbackQueue (w_ctx w1)) = []
      /\ w_closeWait w1 = w_closeWait w
      /\ w_stores w1 = w_stores w
      /\ w_trace w1 = w_trace w ++ evs
      /\ count_events is_task_failure_log evs = failures outcomes
      /\ count_events is_thrown evs = 0.
Proof.
  induction outcomes as [|o outcomes IH]; intros w Hq Hlen.
  - exists w, []. simpl in *.
    destruct (pq_pending (callbackQueue (w_ctx w))); [|discriminate Hlen].
    rewrite app_nil_r. done.
  - destruct (pq_pending (callbackQueue (w_ctx w))) as [|cb rest] eqn:Hp;
      [discriminate Hlen|].
    simpl in Hlen. injection Hlen as Hlen.
    cbn [settle_acts map exec step]. rewrite Hp. cbn [lookup list_lookup].
    destruct o as [error|].
    + unfold run_sync. rewrite reportTaskError_spec.
      match goal with |- context [exec _ _ _ _ ?x] => set (w0 := x) end.
      destruct (IH w0) as (w1 & evs & Hex & H1 & H2 & H3 & H4 & H5 & H6 & H7).
      { unfold w0. simpl. exact Hq. }
      { unfold w0. simpl. by rewrite Hp. }
      exists w1, (report_events isError stitch KindFunction error
                    (Some (wc_store cb)) (onTaskError (w_ctx w)) ++ evs).
      split; [exact Hex|].
      split; [done|]. split; [done|]. split; [done|]. split; [done|].
      split. { rewrite H5. unfold w0. simpl. by rewrite <- app_assoc. }
      rewrite !count_events_app, H6, H7.
      destruct (report_events_counts isError stitch KindFunction error
                  (Some (wc_store cb)) (onTaskError (w_ctx w)))
        as (-> & _ & _ & ->).
      done.
    + match goal with |- context [exec _ _ _ _ ?x] => set (w0 := x) end.
      destruct (IH w0) as (w1 & evs & Hex & H1 & H2 & H3 & H4 & H5 & H6 & H7).
      { unfold w0. simpl. exact Hq. }
      { unfold w0. simpl. by rewrite Hp. }
      exists w1, evs. done.
Qed.

(** X13: a failing procedure does not hold up the drain.  Once the queue
    has started, however the callbacks in flight settle, by returning or
    by throwing, each settles on its own, the failures are reported (one
    task-failure line each) and never thrown, and when the last one has
    settled the queue is idle and the close-wait task completes.  While
    something is still in flight it cannot complete. *)
Theorem drain_completes_despite_failures
    (isThenable isError : JsValue -> bool)
    (stitch : JsValue -> AfterTaskStore -> Outcome JsValue)
    (outcomes : list (option JsValue)) (w : World) (ws : WorkStoreRef) :
  w_closeWait w = CWDraining ws ->
  pq_queue (callbackQueue (w_ctx w)) = [] ->
  length outcomes = length (pq_pending (callbackQueue (w_ctx w))) ->
  (pq_pending (callbackQueue (w_ctx w)) <> [] ->
   step isThenable isError stitch QueueIdle w = None)
  /\ exists w' evs,
       exec isThenable isError stitch (settle_acts outcomes ++ [QueueIdle]) w
       = Some w'
       /\ w_closeWait w' = CWFulfilled
       /\ pq_idle (callbackQueue (w_ctx w')) = true
       /\ w_stores w' = w_stores w
       /\ w_trace w' = w_trace w ++ evs ++ [EvExecuteRevalidates ws]
       /\ count_events is_task_failure_log evs = failures outcomes
       /\ count_events is_thrown evs = 0.
Proof.
  intros Hcw Hq Hlen. split.
  - intros Hne. simpl. rewrite Hcw. unfold pq_idle. rewrite Hq.
    by destruct (pq_pending (callbackQueue (w_ctx w))).
  - destruct (settle_all isThenable isError stitch outcomes w Hq Hlen)
      as (w1 & evs & Hex & H1 & H2 & H3 & H4 & H5 & H6 & H7).
    rewrite exec_app, Hex. cbn [exec step].
    rewrite H3, Hcw. unfold pq_idle. rewrite H1, H2.
    eexists _, evs. split; [reflexivity|]. simpl.
    unfold pq_idle. rewrite H1, H2, H5, <- app_assoc. done.
Qed.

Lemma drain_completes_despite_failures_witness :
  let w := SampleRuns.draining in
  let outcomes := [Some (VError "boom"); None] in
  (pq_pending (callbackQueue (w_ctx w)) <> [] ->
   step Sample.isThenable Sample.isError Sample.stitchAfterCallstack
     QueueIdle w = None)
  /\ exists w' evs,
       Sample.run (settle_acts outcomes ++ [QueueIdle]) w = Some w'
       /\ w_closeWait w' = CWFulfilled
       /\ pq_idle (callbackQueue (w_ctx w')) = true
       /\ w_stores w' = w_stores w
       /\ w_trace w' = w_trace w ++ evs ++ [EvExecuteRevalidates 9]
       /\ count_events is_task_failure_log evs = failures outcomes
       /\ count_events is_thrown evs = 0.
Proof.
  apply (drain_completes_despite_failures Sample.isThenable Sample.isError
           Sample.stitchAfterCallstack [Some (VError "boom"); None]
           SampleRuns.draining 9).
  - vm_compute. reflexivity.
  - vm_compute. reflexivity.
  - vm_compute. reflexivity.
Defined.


